(** * Delivery pipeline of [components/VideoAnalyzer.tsx]

    A shallow embedding of the pure part of the analyzer: the kinematic
    mapper [mapKeypointsToBallPosition], the seam estimator
    [computeSeamAngle], the series smoother [smoothSeries] and the
    segmenter / aggregator [enrichFrames]; and of what surrounds it: the
    sampling loop [samplePosesFromVideo] with the detector's answers as a
    parameter, the overlay [drawOverlay] as the list of what it draws, the
    [onTimeUpdate] handler, the scene of [HawkEyeViewer] and the state of
    the page with its handlers as a step relation.

    Conventions of the embedding.
    - A JavaScript [number] is a real number ([R]).  Rounding error of
      binary64, signed zeros, infinities and NaN are outside the model.
    - Array indices and lengths are [nat]; where the source does real
      arithmetic on them ([idx / Math.max(n - 1, 1)], [n * 0.4]) they are
      injected with [INR] and brought back with [Math_floor].
    - [arr[i]] is the list lookup [arr !! i : option _]; [None] is
      JavaScript's [undefined].  Where the source reads a property of the
      value, or computes with it, or stores it in a field typed [number],
      [undefined] is a failure of the run and the model returns [None]
      (the option monad); where the source tolerates it ([||], [??], [?.],
      a comparison) the model follows the source. *)

From Stdlib Require Import Reals Lra Lia ZArith.
From stdpp Require Import base option list strings.

Open Scope R_scope.

(** ** JavaScript primitives used by the source *)

(** [Math.floor] on a real, as an integer. *)
Definition Math_floor (x : R) : Z := Zfloor x.

(** [Math.round]: the nearest integer, halves rounded up. *)
Definition Math_round (x : R) : R := IZR (Zfloor (x + / 2)).

(** [Math.max] on numbers; on indices the source's [Math.max] and
    [Math.min] are [Nat.max] and [Nat.min]. *)
Definition Math_max (a b : R) : R := Rmax a b.

(** [Math.atan2 y x], the angle of the vector [(x, y)] in (-PI, PI]. *)
Definition Math_atan2 (y x : R) : R :=
  if Rlt_dec 0 x then atan (y / x)
  else if Rlt_dec x 0 then
    (if Rle_dec 0 y then atan (y / x) + PI else atan (y / x) - PI)
  else if Rlt_dec 0 y then PI / 2
  else if Rlt_dec y 0 then - (PI / 2)
  else 0.

(** [a || b] on a number: [0] is the only falsy real. *)
Definition js_or (a b : R) : R := if Req_dec_T a 0 then b else a.

(** [a || b] where [a] may be [undefined]. *)
Definition js_or_undef (a : option R) (b : R) : R :=
  match a with
  | Some v => js_or v b
  | None => b
  end.

(** [a ?? b]: only [undefined]/[null] is replaced. *)
Definition nullish {A} (a : option A) (b : A) : A :=
  match a with
  | Some v => v
  | None => b
  end.

(** [a ?? b] where [b] may be [undefined] too. *)
Definition nullish_opt {A} (a b : option A) : option A :=
  match a with
  | Some v => Some v
  | None => b
  end.

(** [arr.forEach((value, idx) => ...)] over a mutable state [s]; the
    callback may fail. *)
Fixpoint forEach_from {A S : Type} (f : A -> nat -> S -> option S)
    (idx : nat) (l : list A) (s : S) : option S :=
  match l with
  | [] => Some s
  | value :: rest => s' ← f value idx s; forEach_from f (idx + 1)%nat rest s'
  end.

(** [arr.map((value, idx) => ...)] with a callback that may fail. *)
Fixpoint map_from {A B : Type} (f : A -> nat -> option B)
    (idx : nat) (l : list A) : option (list B) :=
  match l with
  | [] => Some []
  | value :: rest =>
      b ← f value idx; bs ← map_from f (idx + 1)%nat rest; Some (b :: bs)
  end.

(** [arr.reduce((acc, value, idx) => ..., init)]. *)
Fixpoint reduce_from {A B : Type} (f : B -> A -> nat -> B)
    (idx : nat) (l : list A) (acc : B) : B :=
  match l with
  | [] => acc
  | value :: rest => reduce_from f (idx + 1)%nat rest (f acc value idx)
  end.

(** ** Series smoother *)

Definition default_factor : R := 0.35.

(** One call of the [forEach] callback of [smoothSeries]: [output] is the
    array built so far. *)
Definition smooth_step (factor : R) (value : R) (idx : nat)
    (output : list R) : option (list R) :=
  if (idx =? 0)%nat then Some (output ++ [value])
  else
    prev ← output !! (idx - 1)%nat;
    Some (output ++ [prev * (1 - factor) + value * factor]).

Definition smoothSeries (series : list R) (factor : R) : option (list R) :=
  forEach_from (smooth_step factor) 0 series [].

(** ** Data model *)

(** [Keypoint] of the pose detector: every field may be absent. *)
Module Keypoint.
Record t : Type := mk {
  x : option R;
  y : option R;
  score : option R;
  name : option string
}.
End Keypoint.

Inductive FramePhase : Type :=
  | RunUp | LoadUp | Release | Pitch | Impact | FollowThrough.

(** A [[number, number, number]] tuple and its three components. *)
Abbreviation Vec3 := (R * R * R)%type.

Definition at0 (v : Vec3) : R := v.1.1.
Definition at1 (v : Vec3) : R := v.1.2.
Definition at2 (v : Vec3) : R := v.2.

Module FrameSnapshot.
Record t : Type := mk {
  time : R;
  phase : FramePhase;
  ballPosition : Vec3;
  seamAngle : R;
  speedKph : R;
  releaseHeight : R;
  keypoints : list Keypoint.t
}.
End FrameSnapshot.

Module KeyMoments.
Record t : Type := mk {
  releaseFrame : nat;
  pitchFrame : nat;
  impactFrame : nat
}.
End KeyMoments.

Module Summary.
Record t : Type := mk {
  releaseSpeedKph : R;
  seamAngle : R;
  releaseHeight : R;
  predictedImpactMeters : R;
  runupVelocityKph : R
}.
End Summary.

Module AnalysisResult.
Record t : Type := mk {
  frames : list FrameSnapshot.t;
  trajectory : list Vec3;
  keyMoments : KeyMoments.t;
  summary : Summary.t
}.
End AnalysisResult.

Definition PITCH_LENGTH_METERS : R := 20.12.
Definition SEAM_SMOOTHING : R := 0.25.

(** ** Kinematic mapper and seam estimator *)

(** [keypoints.find((kp) => kp.name === n)]: the first keypoint so named. *)
Definition find_named (n : string) (keypoints : list Keypoint.t)
    : option Keypoint.t :=
  List.find (fun kp => bool_decide (Keypoint.name kp = Some n)) keypoints.

(** The keypoint the mapper reads: right wrist, else left wrist, else the
    first keypoint. *)
Definition mapper_wrist (keypoints : list Keypoint.t) : option Keypoint.t :=
  nullish_opt (find_named "right_wrist" keypoints)
    (nullish_opt (find_named "left_wrist" keypoints) (keypoints !! 0%nat)).

Definition mapKeypointsToBallPosition (width height : R)
    (keypoints : list Keypoint.t) : Vec3 :=
  match mapper_wrist keypoints with
  | None => (0, 1.2, 0)
  | Some wrist =>
      let normalizedX := nullish (Keypoint.x wrist) (width / 2) / width - 0.5 in
      let normalizedY := 1 - nullish (Keypoint.y wrist) (height * 0.6) / height in
      let x := normalizedX * 3.6 in
      let y := Math_max 0.4 (normalizedY * 2.6) in
      (x, y, 0)
  end.

Definition seam_wrist (keypoints : list Keypoint.t) : option Keypoint.t :=
  nullish_opt (find_named "right_wrist" keypoints)
    (find_named "left_wrist" keypoints).

Definition seam_elbow (keypoints : list Keypoint.t) : option Keypoint.t :=
  nullish_opt (find_named "right_elbow" keypoints)
    (find_named "left_elbow" keypoints).

Definition computeSeamAngle (keypoints : list Keypoint.t) : R :=
  match seam_wrist keypoints, seam_elbow keypoints with
  | Some wrist, Some elbow =>
      match Keypoint.x wrist, Keypoint.y wrist,
            Keypoint.x elbow, Keypoint.y elbow with
      | Some _, Some _, Some _, Some _ =>
          let dx := nullish (Keypoint.x wrist) 0 - nullish (Keypoint.x elbow) 0 in
          let dy := nullish (Keypoint.y wrist) 0 - nullish (Keypoint.y elbow) 0 in
          let angle := Math_atan2 dy dx * 180 / PI in
          Math_round (angle * 10) / 10
      | _, _, _, _ => 12
      end
  | _, _ => 12
  end.

(** ** Segmenter and aggregator: the stages of [enrichFrames] *)

(** The record returned for an empty input. *)
Definition fallback : FrameSnapshot.t :=
  FrameSnapshot.mk 0 RunUp (0, 1.5, 0) 15 115 1.86 [].

Definition fallback_result : AnalysisResult.t :=
  AnalysisResult.mk [fallback] [(0, 1.5, 0)]
    (KeyMoments.mk 0 0 0)
    (Summary.mk 115 15 1.86 5.4 24).

(** Depth given to frame [idx] of [n] frames. *)
Definition depth_of (n idx : nat) : R :=
  let progress := INR idx / INR (Nat.max (n - 1) 1) in
  progress * PITCH_LENGTH_METERS.

Definition positions_of (frames : list FrameSnapshot.t) : list Vec3 :=
  imap (fun idx frame =>
          (at0 (FrameSnapshot.ballPosition frame),
           at1 (FrameSnapshot.ballPosition frame),
           depth_of (length frames) idx)) frames.

(** The callback of the [speeds] map. *)
Definition speed_at (frames : list FrameSnapshot.t) (positions : list Vec3)
    (frame : FrameSnapshot.t) (idx : nat) : option R :=
  if (idx =? 0)%nat then Some 0
  else
    prev ← positions !! (idx - 1)%nat;
    curr ← positions !! idx;
    this ← frames !! idx;
    before ← frames !! (idx - 1)%nat;
    let dt := js_or (FrameSnapshot.time this - FrameSnapshot.time before) 0.016 in
    let dx := at0 curr - at0 prev in
    let dy := at1 curr - at1 prev in
    let dz := at2 curr - at2 prev in
    let metersPerSec := sqrt (dx * dx + dy * dy + dz * dz) / dt in
    Some (Math_round (metersPerSec * 3.6)).

Definition speeds_of (frames : list FrameSnapshot.t) : option (list R) :=
  map_from (speed_at frames (positions_of frames)) 0 frames.

(** [Math.floor(n * c)] for an index or a length [n]. *)
Definition floor_scaled (n : nat) (c : R) : nat :=
  Z.to_nat (Math_floor (INR n * c)).

(** The callback of the release scan: [speed > smoothedSpeeds[acc] ? idx : acc];
    a comparison with [undefined] is false. *)
Definition release_step (smoothedSpeeds : list R) (acc : nat) (speed : R)
    (idx : nat) : nat :=
  match smoothedSpeeds !! acc with
  | Some best => if Rlt_dec best speed then idx else acc
  | None => acc
  end.

(** [reduce] returns an index, never [undefined]: the [?? 0] that follows
    it in the source does nothing. *)
Definition releaseFrame_of (smoothedSpeeds : list R) : nat :=
  reduce_from (release_step smoothedSpeeds) 0 smoothedSpeeds
    (floor_scaled (length smoothedSpeeds) 0.4).

Definition pitchFrame_of (n releaseFrame : nat) : nat :=
  Nat.min (n - 1) (releaseFrame + floor_scaled n 0.25).

Definition impactFrame_of (n pitchFrame : nat) : nat :=
  Nat.min (n - 1) (pitchFrame + floor_scaled n 0.2).

Definition phase_of (releaseFrame pitchFrame impactFrame idx : nat)
    : FramePhase :=
  if Rlt_dec (INR idx) (INR releaseFrame * 0.5) then RunUp
  else if (idx <? releaseFrame)%nat then LoadUp
  else if (idx =? releaseFrame)%nat then Release
  else if (idx <=? pitchFrame)%nat then Pitch
  else if (idx <=? impactFrame)%nat then Impact
  else FollowThrough.

Definition phases_of (frames : list FrameSnapshot.t)
    (releaseFrame pitchFrame impactFrame : nat) : list FramePhase :=
  imap (fun idx _ => phase_of releaseFrame pitchFrame impactFrame idx) frames.

(** The callback of the [enrichedFrames] map. *)
Definition enrich_at (frames : list FrameSnapshot.t) (phases : list FramePhase)
    (positions : list Vec3) (seamAngles smoothedSpeeds : list R)
    (frame : FrameSnapshot.t) (idx : nat) : option FrameSnapshot.t :=
  ph ← phases !! idx;
  pos ← positions !! idx;
  angle ← seamAngles !! idx;
  speed ← smoothedSpeeds !! idx;
  this ← frames !! idx;
  Some (FrameSnapshot.mk (FrameSnapshot.time frame) ph pos angle speed
          (at1 (FrameSnapshot.ballPosition this))
          (FrameSnapshot.keypoints frame)).

Definition enrichFrames (frames : list FrameSnapshot.t)
    : option AnalysisResult.t :=
  if (length frames =? 0)%nat then Some fallback_result
  else
    let positions := positions_of frames in
    speeds ← speeds_of frames;
    smoothedSpeeds ← smoothSeries speeds default_factor;
    seamAngles ← smoothSeries (map FrameSnapshot.seamAngle frames) SEAM_SMOOTHING;
    let releaseFrame := releaseFrame_of smoothedSpeeds in
    let pitchFrame := pitchFrame_of (length frames) releaseFrame in
    let impactFrame := impactFrame_of (length frames) pitchFrame in
    let phases := phases_of frames releaseFrame pitchFrame impactFrame in
    enrichedFrames ←
      map_from (enrich_at frames phases positions seamAngles smoothedSpeeds) 0 frames;
    let releaseSpeedKph := js_or_undef (smoothedSpeeds !! releaseFrame) 122 in
    let runupVelocityKph :=
      js_or_undef (smoothedSpeeds !! floor_scaled releaseFrame 0.5) 22 in
    atImpact ← positions !! impactFrame;
    let predictedImpactMeters := Math_max 0 (PITCH_LENGTH_METERS - at2 atImpact) in
    Some (AnalysisResult.mk enrichedFrames positions
            (KeyMoments.mk releaseFrame pitchFrame impactFrame)
            (Summary.mk releaseSpeedKph
               (js_or_undef (seamAngles !! releaseFrame) 14)
               (nullish (FrameSnapshot.releaseHeight <$> enrichedFrames !! releaseFrame) 1.85)
               predictedImpactMeters
               runupVelocityKph)).

(** ** The sampler: [samplePosesFromVideo] *)

Definition SAMPLE_FRAMES : R := 90.

(** The fields of the [HTMLVideoElement] the source reads. *)
Module Video.
Record t : Type := mk {
  videoWidth : R;
  videoHeight : R;
  clientWidth : R;
  clientHeight : R;
  duration : R
}.
End Video.

(** How a call of the source ends: with a value, with an exception, or,
    for a loop of the model, without enough fuel. *)
Inductive outcome (A : Type) : Type :=
  | Returned (a : A)
  | Thrown
  | OutOfFuel.
Arguments Returned {A} a.
Arguments Thrown {A}.
Arguments OutOfFuel {A}.

(** [({ score }) => (score ?? 0) > 0.2]. *)
Definition confident (kp : Keypoint.t) : bool :=
  if Rlt_dec 0.2 (nullish (Keypoint.score kp) 0) then true else false.

(** The frame pushed by one iteration of the sampling loop; [pose] is
    [poses[0]?.keypoints] of that iteration's detector call. *)
Definition sample_frame (width height time : R)
    (pose : option (list Keypoint.t)) : FrameSnapshot.t :=
  let keypoints := nullish (List.filter confident <$> pose) [] in
  let ballPosition :=
    mapKeypointsToBallPosition width height (nullish pose []) in
  FrameSnapshot.mk time RunUp ballPosition (computeSeamAngle keypoints) 0
    (Math_max (at1 ballPosition) 1.2) keypoints.

(** [for (let time = 0; time <= duration; time += step) { ... }], entered
    at [time] with [frames] pushed so far; [call] counts the detector
    calls and [detector call] is the answer to call number [call].  [None]
    when the fuel runs out.  [time + step] is the sum of reals: the
    rounding that the source's [time += step] accumulates is outside the
    model, so the theorems on the sampler state what holds whatever that
    rounding is: bounds on the number of frames and the order of the
    stamps, not an exact stamp or an exact count. *)
Fixpoint sample_loop (fuel : nat) (detector : nat -> option (list Keypoint.t))
    (width height duration step time : R) (call : nat)
    (frames : list FrameSnapshot.t) : option (list FrameSnapshot.t) :=
  match fuel with
  | O => None
  | S fuel' =>
      if Rle_dec time duration then
        sample_loop fuel' detector width height duration step (time + step)
          (call + 1)%nat
          (frames ++ [sample_frame width height time (detector call)])
      else Some frames
  end.

(** [hasContext] is whether [canvas.getContext("2d")] returned a context.
    Seeking the video and drawing it on the canvas are effects on the
    page, not on the returned frames. *)
Definition samplePosesFromVideo (fuel : nat) (hasContext : bool)
    (video : Video.t) (detector : nat -> option (list Keypoint.t))
    : outcome (list FrameSnapshot.t) :=
  if negb hasContext then Thrown
  else
    let width := js_or (Video.videoWidth video) 1280 in
    let height := js_or (Video.videoHeight video) 720 in
    let duration := js_or (Video.duration video) 3 in
    let step := Math_max (duration / SAMPLE_FRAMES) 0.02 in
    match sample_loop fuel detector width height duration step 0 0 [] with
    | Some frames => Returned frames
    | None => OutOfFuel
    end.

(** ** The overlay: [drawOverlay] and the [onTimeUpdate] handler *)

(** What [drawOverlay] puts on the canvas. *)
Inductive DrawCmd : Type :=
  | ClearRect (width height : R)
  | Dot (x y radius : R)
  | Label (speed : R) (phase : FramePhase) (x y : R).

(** The callback of [kp.forEach] in [drawOverlay]. *)
Definition keypoint_dot (point : Keypoint.t) : list DrawCmd :=
  match Keypoint.x point, Keypoint.y point with
  | Some x, Some y => [Dot x y 6]
  | _, _ => []
  end.

(** [ready] is whether the canvas, its context and the video element are
    all present. *)
Definition drawOverlay (ready : bool) (video : Video.t)
    (frame : option FrameSnapshot.t) : list DrawCmd :=
  if negb ready then []
  else
    let width := js_or (Video.videoWidth video) (js_or (Video.clientWidth video) 1280) in
    let height := js_or (Video.videoHeight video) (js_or (Video.clientHeight video) 720) in
    match frame with
    | None => [ClearRect width height]
    | Some frame =>
        let videoX := (at0 (FrameSnapshot.ballPosition frame) / 3.6 + 0.5) * width in
        let videoY := (1 - at1 (FrameSnapshot.ballPosition frame) / 2.6) * height in
        ClearRect width height
          :: flat_map keypoint_dot (FrameSnapshot.keypoints frame)
          ++ [Dot videoX videoY 8;
              Label (Math_round (FrameSnapshot.speedKph frame))
                (FrameSnapshot.phase frame) (videoX + 12) (videoY - 12)]
    end.

(** [arr.reduce((acc, value, idx) => ..., init)] with a callback that may
    fail. *)
Fixpoint reduceM_from {A B : Type} (f : B -> A -> nat -> option B)
    (idx : nat) (l : list A) (acc : B) : option B :=
  match l with
  | [] => Some acc
  | value :: rest => acc' ← f acc value idx; reduceM_from f (idx + 1)%nat rest acc'
  end.

(** The callback of the nearest-frame scan; it reads [.time] of
    [framesRef.current[closest]]. *)
Definition nearest_step (framesRef : list FrameSnapshot.t) (currentTime : R)
    (closest : nat) (frame : FrameSnapshot.t) (idx : nat) : option nat :=
  best ← framesRef !! closest;
  Some (if Rlt_dec (Rabs (FrameSnapshot.time frame - currentTime))
                   (Rabs (FrameSnapshot.time best - currentTime))
        then idx else closest).

Definition nearestIdx_of (framesRef : list FrameSnapshot.t) (currentTime : R)
    : option nat :=
  reduceM_from (nearest_step framesRef currentTime) 0 framesRef 0%nat.

(** The handler returns early ([Some None]) on an empty [framesRef];
    otherwise it redraws the overlay and seeks to the nearest frame. *)
Definition onTimeUpdate (ready : bool) (video : Video.t)
    (framesRef : list FrameSnapshot.t) (currentTime : R)
    : option (option (list DrawCmd * nat)) :=
  if (length framesRef =? 0)%nat then Some None
  else
    nearestIdx ← nearestIdx_of framesRef currentTime;
    Some (Some (drawOverlay ready video (framesRef !! nearestIdx), nearestIdx)).

(** ** The viewer: [components/HawkEyeViewer.tsx] *)

(** The scene position of a trajectory point: raised by the ball radius,
    depth along negative z. *)
Definition scene_point (pt : Vec3) : Vec3 := (at0 pt, at1 pt + 0.09, - at2 pt).

(** The [curve] memo of [Trajectory]: [null] for no points. *)
Definition curve_of (points : list Vec3) : option (list Vec3) :=
  if (length points =? 0)%nat then None else Some (map scene_point points).

(** [Trajectory]: the control points and the number of tube segments. *)
Definition Trajectory (points : list Vec3) : option (list Vec3 * nat) :=
  curve ← curve_of points;
  Some (curve, Nat.max (length curve * 4) 32).

(** [FrameAnnotator]: the position of the ball marker and of the light
    that follows it; it reads [.ballPosition] of the chosen frame. *)
Definition FrameAnnotator (delivery : AnalysisResult.t) (keyFrameIndex : nat)
    : option (Vec3 * Vec3) :=
  frame ← nullish_opt (AnalysisResult.frames delivery !! keyFrameIndex)
            (AnalysisResult.frames delivery !! 0%nat);
  let ballPosition := FrameSnapshot.ballPosition frame in
  Some (scene_point ballPosition,
        (at0 ballPosition + 4, 5, - at2 ballPosition - 3)).

Module Scene.
Record t : Type := mk {
  tube : option (list Vec3 * nat);
  annotation : option (Vec3 * Vec3)
}.
End Scene.

Definition HawkEyeViewer (delivery : option AnalysisResult.t)
    (keyFrameIndex : nat) : option Scene.t :=
  let trajectoryPoints := nullish (AnalysisResult.trajectory <$> delivery) [] in
  let tube :=
    if (1 <? length trajectoryPoints)%nat then Trajectory trajectoryPoints
    else None in
  match delivery with
  | Some delivery =>
      annotation ← FrameAnnotator delivery keyFrameIndex;
      Some (Scene.mk tube (Some annotation))
  | None => Some (Scene.mk tube None)
  end.

(** ** The page: state and handlers of [app/page.tsx] and [VideoAnalyzer] *)

Inductive AnalyzerStatus : Type :=
  | idle | loading_model | processing | completed | error.

(** The three state cells of [HomePage] and the [framesRef] of
    [VideoAnalyzer]. *)
Module App.
Record t : Type := mk {
  status : AnalyzerStatus;
  result : option AnalysisResult.t;
  selectedKeyFrame : nat;
  framesRef : list FrameSnapshot.t
}.
End App.

Definition initial_app : App.t := App.mk idle None 0 [].

Definition onStatusChange (value : AnalyzerStatus) (s : App.t) : App.t :=
  App.mk value (App.result s) (App.selectedKeyFrame s) (App.framesRef s).

Definition onResult (analysis : AnalysisResult.t) (s : App.t) : App.t :=
  App.mk (App.status s) (Some analysis) 0 (App.framesRef s).

Definition onSeek (index : nat) (s : App.t) : App.t :=
  App.mk (App.status s) (App.result s) index (App.framesRef s).

(** The "Reset Analysis" button. *)
Definition reset (s : App.t) : App.t :=
  App.mk idle None 0 (App.framesRef s).

(** [deliveryTimeline]: one entry per frame of the result, [[]] without a
    result. *)
Definition deliveryTimeline (s : App.t) : list (nat * FramePhase) :=
  nullish
    ((fun r => imap (fun idx frame => (idx, FrameSnapshot.phase frame))
                 (AnalysisResult.frames r)) <$> App.result s) [].

(** The chip beside the slider: the label of the selected entry, [None]
    where the source shows the text "Frame". *)
Definition timeline_label (s : App.t) : option FramePhase :=
  snd <$> deliveryTimeline s !! App.selectedKeyFrame s.

(** The tail of [handleFile] once the frames are sampled. *)
Definition analysis_done (frames : list FrameSnapshot.t) (s : App.t)
    : option App.t :=
  analysis ← enrichFrames frames;
  let s1 := App.mk (App.status s) (App.result s) (App.selectedKeyFrame s)
              (AnalysisResult.frames analysis) in
  Some (onSeek 0 (onResult analysis (onStatusChange completed s1))).

(** The [onTimeUpdate] handler on the page state. *)
Definition time_update (ready : bool) (video : Video.t) (currentTime : R)
    (s : App.t) : App.t :=
  match onTimeUpdate ready video (App.framesRef s) currentTime with
  | Some (Some (_, nearestIdx)) => onSeek nearestIdx s
  | _ => s
  end.

(** One event of the page.  The slider exists only while the timeline is
    not empty, and the browser keeps its value between [min = 0] and
    [max = deliveryTimeline.length - 1]. *)
Inductive app_step : App.t -> App.t -> Prop :=
  | step_reset s : app_step s (reset s)
  | step_upload s : app_step s (onStatusChange loading_model s)
  | step_detector s : app_step s (onStatusChange processing s)
  | step_done s frames s' :
      analysis_done frames s = Some s' -> app_step s s'
  | step_failed s : app_step s (onStatusChange error s)
  | step_time s ready video currentTime :
      app_step s (time_update ready video currentTime s)
  | step_slider s value :
      deliveryTimeline s <> [] ->
      (value <= length (deliveryTimeline s) - 1)%nat ->
      app_step s (onSeek value s).

Inductive app_reachable : App.t -> Prop :=
  | reach_initial : app_reachable initial_app
  | reach_step s s' : app_reachable s -> app_step s s' -> app_reachable s'.

(** The position of a label in the declaration of [FramePhase]. *)
Definition phase_rank (phase : FramePhase) : nat :=
  match phase with
  | RunUp => 0
  | LoadUp => 1
  | Release => 2
  | Pitch => 3
  | Impact => 4
  | FollowThrough => 5
  end.

(** ** Sample inputs *)

(** A frame as the sampler builds it when the detector reports no
    keypoint: the mapper's default position, the seam estimator's default
    angle, speed 0. *)
Definition still_frame (time : R) : FrameSnapshot.t :=
  FrameSnapshot.mk time RunUp (0, 1.2, 0) 12 0 1.2 [].

(** Ten such frames, 0.1 s apart from 0.0 s to 0.9 s. *)
Definition uniform_frames : list FrameSnapshot.t :=
  (fun i => still_frame (INR i / 10)) <$> seq 0 10.

(** Five such frames; the second follows the first after 0.01 s, the
    others are 1 s apart. *)
Definition burst_frames : list FrameSnapshot.t :=
  [still_frame 0; still_frame 0.01; still_frame 1.01; still_frame 2.01;
   still_frame 3.01].

(** A single frame whose raw ball position lies on the ground. *)
Definition grounded_frame : FrameSnapshot.t :=
  FrameSnapshot.mk 0 RunUp (0, 0, 0) 12 0 1.2 [].

(** A wrist one pixel right of and one pixel below the elbow. *)
Definition forearm_keypoints : list Keypoint.t :=
  [Keypoint.mk (Some 0) (Some 0) (Some 0.9) (Some "right_elbow");
   Keypoint.mk (Some 1) (Some 1) (Some 0.9) (Some "right_wrist")].

(** A keypoint set with one keypoint and no coordinate at all. *)
Definition blank_keypoints : list Keypoint.t :=
  [Keypoint.mk None None None None].

(** A lone left wrist in the middle of a 1280 x 720 frame. *)
Definition left_wrist_keypoints : list Keypoint.t :=
  [Keypoint.mk (Some 640) (Some 360) (Some 0.9) (Some "left_wrist")].

(** A three second clip of 1280 x 720 pixels. *)
Definition sample_video : Video.t := Video.mk 1280 720 0 0 3.

(** A detector that sees the lone left wrist in every frame. *)
Definition wrist_detector (call : nat) : option (list Keypoint.t) :=
  Some left_wrist_keypoints.

(** [still_frame 0] with another phase, speed, release height and depth. *)
Definition relabelled_frame : FrameSnapshot.t :=
  FrameSnapshot.mk 0 Impact (0, 1.2, 7) 12 99 5 [].

(** * Properties *)

(** Decimal literals are quotients of integers; [field] needs to see them
    as such. *)
Ltac decimals := unfold Q2R; cbn [QArith_base.Qnum QArith_base.Qden].

(** ** The array helpers *)

Section ArrayHelpers.
Context {A B : Type}.

(** A [map] whose callback succeeds on every element it is given
    succeeds, keeps the length and holds the callback's results. *)
Lemma map_from_Some (f : A -> nat -> option B) (l : list A) (idx : nat) :
  (forall k a, l !! k = Some a -> is_Some (f a (idx + k)%nat)) ->
  exists bs, map_from f idx l = Some bs /\ length bs = length l /\
    forall k a, l !! k = Some a -> exists b,
      bs !! k = Some b /\ f a (idx + k)%nat = Some b.
Proof.
  revert idx. induction l as [|a l IH]; intros idx Hf; simpl.
  - exists []. repeat split; auto. intros k a Hk. discriminate.
  - destruct (Hf 0%nat a eq_refl) as [b Hb].
    rewrite Nat.add_0_r in Hb. rewrite Hb. simpl.
    destruct (IH (idx + 1)%nat) as (bs & Hbs & Hlen & Hlook).
    { intros k a' Hk. replace (idx + 1 + k)%nat with (idx + S k)%nat by lia.
      apply (Hf (S k)). exact Hk. }
    rewrite Hbs. simpl. exists (b :: bs). split; [reflexivity|].
    split; [simpl; congruence|].
    intros [|k] a' Hk; simpl in Hk.
    + inversion Hk; subst. exists b. rewrite Nat.add_0_r. auto.
    + destruct (Hlook k a' Hk) as (b' & H1 & H2). exists b'. split; [exact H1|].
      replace (idx + S k)%nat with (idx + 1 + k)%nat by lia. exact H2.
Qed.

(** What a successful [map] returned. *)
Lemma map_from_inv (f : A -> nat -> option B) (l : list A) (idx : nat) bs :
  map_from f idx l = Some bs ->
  length bs = length l /\
  forall k a, l !! k = Some a -> exists b,
    bs !! k = Some b /\ f a (idx + k)%nat = Some b.
Proof.
  revert idx bs. induction l as [|a l IH]; intros idx bs; simpl.
  - intros [= <-]. split; [reflexivity|]. intros k a Hk. discriminate.
  - destruct (f a idx) as [b|] eqn:Hb; simpl; [|discriminate].
    destruct (map_from f (idx + 1)%nat l) as [bs'|] eqn:Hbs; simpl; [|discriminate].
    intros [= <-]. destruct (IH _ _ Hbs) as [Hlen Hlook].
    split; [simpl; congruence|].
    intros [|k] a' Hk; simpl in Hk.
    + inversion Hk; subst. exists b. rewrite Nat.add_0_r. auto.
    + destruct (Hlook k a' Hk) as (b' & H1 & H2). exists b'. split; [exact H1|].
      replace (idx + S k)%nat with (idx + 1 + k)%nat by lia. exact H2.
Qed.

(** A [reduce] whose accumulator satisfies [P] at the seed, and whose
    callback keeps [P] on the elements of the array, ends in [P]. *)
Lemma reduce_from_ind (P : B -> Prop) (f : B -> A -> nat -> B)
    (l : list A) (idx : nat) (acc : B) :
  P acc ->
  (forall acc' k a, P acc' -> l !! k = Some a -> P (f acc' a (idx + k)%nat)) ->
  P (reduce_from f idx l acc).
Proof.
  revert idx acc. induction l as [|a l IH]; intros idx acc Hacc Hstep; simpl.
  - exact Hacc.
  - apply IH.
    + specialize (Hstep acc 0%nat a Hacc eq_refl).
      rewrite Nat.add_0_r in Hstep. exact Hstep.
    + intros acc' k a' Hacc' Hk.
      replace (idx + 1 + k)%nat with (idx + S k)%nat by lia.
      apply Hstep; assumption.
Qed.
End ArrayHelpers.

(** ** Series smoother *)

(** The two cases of the callback. *)
Lemma smooth_step_first (factor value : R) (output : list R) :
  smooth_step factor value 0 output = Some (output ++ [value]).
Proof. reflexivity. Qed.

Lemma smooth_step_next (factor value prev : R) (output : list R) (idx : nat) :
  idx <> 0%nat -> output !! (idx - 1)%nat = Some prev ->
  smooth_step factor value idx output =
    Some (output ++ [prev * (1 - factor) + value * factor]).
Proof.
  intros Hnz Hprev. unfold smooth_step.
  destruct (Nat.eqb_spec idx 0) as [|_]; [contradiction|].
  rewrite Hprev. reflexivity.
Qed.

(** The loop invariant of [smoothSeries]: entered at index [idx] with
    [idx] values already pushed, the loop succeeds, keeps what was pushed
    and appends one value per remaining element, each by the recurrence. *)
Lemma smooth_loop (factor : R) (l output : list R) (idx : nat) :
  length output = idx ->
  exists out,
    forEach_from (smooth_step factor) idx l output = Some out /\
    length out = (idx + length l)%nat /\
    (forall k, (k < idx)%nat -> out !! k = output !! k) /\
    (forall k v, l !! k = Some v ->
       ((idx + k = 0)%nat -> out !! 0%nat = Some v) /\
       ((0 < idx + k)%nat -> exists prev,
           out !! (idx + k - 1)%nat = Some prev /\
           out !! (idx + k)%nat = Some (prev * (1 - factor) + v * factor))).
Proof.
  revert output idx. induction l as [|v l IH]; intros output idx Hlen;
    cbn [forEach_from].
  - exists output. split; [reflexivity|]. split; [simpl; lia|].
    split; [auto|]. intros k v Hk. discriminate.
  - destruct (Nat.eq_dec idx 0%nat) as [Hz|Hnz].
    + subst idx. destruct output; [|discriminate].
      rewrite smooth_step_first. cbn [mbind option_bind app].
      destruct (IH [v] 1%nat eq_refl) as (out & Hrun & Hl & Hkeep & Hrec).
      exists out. split; [exact Hrun|]. split; [simpl in *; lia|].
      split; [intros k Hk; lia|].
      intros [|k] v' Hk; simpl in Hk.
      * inversion Hk; subst. split; [|intros; lia].
        intros _. apply (Hkeep 0%nat). lia.
      * destruct (Hrec k v' Hk) as [_ H2]. split; [intros; lia|].
        intros _. apply H2. lia.
    + destruct (lookup_lt_is_Some_2 output (idx - 1)%nat ltac:(lia)) as [prev Hprev].
      rewrite (smooth_step_next factor v prev output idx Hnz Hprev).
      cbn [mbind option_bind].
      set (o := prev * (1 - factor) + v * factor).
      destruct (IH (output ++ [o]) (idx + 1)%nat) as (out & Hrun & Hl & Hkeep & Hrec).
      { rewrite length_app. simpl. lia. }
      exists out. split; [exact Hrun|]. split; [simpl; lia|].
      split.
      { intros k Hk. rewrite Hkeep by lia. apply lookup_app_l. lia. }
      intros [|k] v' Hk; simpl in Hk.
      * inversion Hk; subst v'. split; [intros; lia|]. intros _.
        exists prev. rewrite Nat.add_0_r.
        rewrite !Hkeep by lia. split.
        -- rewrite lookup_app_l by lia. exact Hprev.
        -- rewrite lookup_app_r by lia.
           replace (idx - length output)%nat with 0%nat by lia. reflexivity.
      * destruct (Hrec k v' Hk) as [_ H2]. split; [intros; lia|]. intros _.
        replace (idx + S k)%nat with (idx + 1 + k)%nat by lia. apply H2. lia.
Qed.

(** With [factor = 1] the loop appends its input unchanged. *)
Lemma smooth_loop_one (l output : list R) (idx : nat) :
  length output = idx ->
  forEach_from (smooth_step 1) idx l output = Some (output ++ l).
Proof.
  revert output idx. induction l as [|v l IH]; intros output idx Hlen;
    cbn [forEach_from].
  - rewrite app_nil_r. reflexivity.
  - assert (Hstep : smooth_step 1 v idx output = Some (output ++ [v])).
    { destruct (Nat.eq_dec idx 0%nat) as [Hz|Hnz].
      - rewrite Hz. apply smooth_step_first.
      - destruct (lookup_lt_is_Some_2 output (idx - 1)%nat ltac:(lia)) as [prev Hprev].
        rewrite (smooth_step_next 1 v prev output idx Hnz Hprev).
        do 3 f_equal. lra. }
    rewrite Hstep. cbn [mbind option_bind].
    rewrite (IH (output ++ [v]) (idx + 1)%nat).
    + rewrite <- app_assoc. reflexivity.
    + rewrite length_app. simpl. lia.
Qed.

(** C6: [smoothSeries] with factor 1 returns its input; with any factor it
    succeeds with an output of the input's length whose first value is the
    input's first value and whose value at [i > 0] is
    [output[i-1] * (1 - factor) + input[i] * factor]; the empty series
    gives the empty series. *)
Theorem smoothSeries_contract (series : list R) (factor : R) :
  smoothSeries series 1 = Some series /\
  smoothSeries [] factor = Some [] /\
  exists output,
    smoothSeries series factor = Some output /\
    length output = length series /\
    output !! 0%nat = series !! 0%nat /\
    forall i v, (0 < i)%nat -> series !! i = Some v ->
      exists prev, output !! (i - 1)%nat = Some prev /\
        output !! i = Some (prev * (1 - factor) + v * factor).
Proof.
  split; [apply (smooth_loop_one series [] 0%nat eq_refl)|].
  split; [reflexivity|].
  destruct (smooth_loop factor series [] 0%nat eq_refl) as (out & Hrun & Hl & _ & Hrec).
  exists out. split; [exact Hrun|]. split; [exact Hl|]. split.
  - destruct series as [|v series].
    + destruct out; [reflexivity|discriminate].
    + apply (Hrec 0%nat v eq_refl). reflexivity.
  - intros i v Hi Hv. apply (Hrec i v Hv). simpl. exact Hi.
Qed.

(** ** Index arithmetic of the segmenter *)

(** [Math.floor(n * c)] stays below [n] for a fraction [c] of a non-empty
    length. *)
Lemma floor_scaled_lt (n : nat) (c : R) :
  (0 < n)%nat -> 0 <= c < 1 -> (floor_scaled n c < n)%nat.
Proof.
  intros Hn [Hc0 Hc1]. unfold floor_scaled, Math_floor.
  assert (Hpos : 0 < INR n) by (apply lt_0_INR; exact Hn).
  destruct (Zfloor_bound (INR n * c)) as [Hlo _].
  assert (Hlt : IZR (Zfloor (INR n * c)) < IZR (Z.of_nat n)).
  { rewrite <- INR_IZR_INZ. nra. }
  apply lt_IZR in Hlt. lia.
Qed.

(** [Math.floor(n * c)] as an integer division, for [c = p / q]. *)
Lemma floor_scaled_div (n p q : nat) (c : R) :
  (0 < q)%nat -> c * INR q = INR p -> floor_scaled n c = (n * p / q)%nat.
Proof.
  intros Hq Hc. unfold floor_scaled, Math_floor.
  assert (Hq' : 0 < INR q) by (apply lt_0_INR; exact Hq).
  assert (Heq : INR n * c = INR (n * p) / INR q).
  { rewrite mult_INR, <- Hc. field. lra. }
  rewrite Heq.
  pose proof (Nat.div_mod_eq (n * p) q) as Hdm.
  pose proof (Nat.mod_upper_bound (n * p) q ltac:(lia)) as Hmod.
  set (d := (n * p / q)%nat) in *. set (m := ((n * p) mod q)%nat) in *.
  rewrite (Zfloor_eq (Z.of_nat d)); [lia|].
  rewrite <- INR_IZR_INZ, Hdm, plus_INR, mult_INR.
  apply lt_INR in Hmod. pose proof (pos_INR m) as Hm0.
  split.
  - apply (Rmult_le_reg_r (INR q)); [exact Hq'|].
    unfold Rdiv. rewrite Rmult_assoc, Rinv_l by lra. nra.
  - apply (Rmult_lt_reg_r (INR q)); [exact Hq'|].
    unfold Rdiv. rewrite Rmult_assoc, Rinv_l by lra. nra.
Qed.

(** The release scan ends on an index of the array. *)
Lemma releaseFrame_of_lt (smoothedSpeeds : list R) :
  (0 < length smoothedSpeeds)%nat ->
  (releaseFrame_of smoothedSpeeds < length smoothedSpeeds)%nat.
Proof.
  intros Hn. unfold releaseFrame_of.
  apply (reduce_from_ind (fun acc => (acc < length smoothedSpeeds)%nat)).
  - apply floor_scaled_lt; [exact Hn|lra].
  - intros acc k a Hacc Hk. unfold release_step.
    destruct (smoothedSpeeds !! acc); [|exact Hacc].
    destruct (Rlt_dec r a); [|exact Hacc].
    simpl. apply lookup_lt_Some in Hk. exact Hk.
Qed.

Lemma pitchFrame_of_bounds (n releaseFrame : nat) :
  (releaseFrame < n)%nat ->
  (releaseFrame <= pitchFrame_of n releaseFrame <= n - 1)%nat.
Proof. unfold pitchFrame_of. lia. Qed.

Lemma impactFrame_of_bounds (n pitchFrame : nat) :
  (pitchFrame <= n - 1)%nat ->
  (pitchFrame <= impactFrame_of n pitchFrame <= n - 1)%nat.
Proof. unfold impactFrame_of. lia. Qed.

(** ** The stages of [enrichFrames] on a non-empty input *)

Lemma positions_of_length (frames : list FrameSnapshot.t) :
  length (positions_of frames) = length frames.
Proof. unfold positions_of. apply length_imap. Qed.

Lemma positions_of_lookup (frames : list FrameSnapshot.t) (k : nat) frame :
  frames !! k = Some frame ->
  positions_of frames !! k =
    Some (at0 (FrameSnapshot.ballPosition frame),
          at1 (FrameSnapshot.ballPosition frame),
          depth_of (length frames) k).
Proof.
  intros Hk. unfold positions_of. rewrite list_lookup_imap, Hk. reflexivity.
Qed.

(** The speed callback succeeds on every index of [frames]. *)
Lemma speed_at_is_Some (frames : list FrameSnapshot.t) frame (k : nat) :
  (k < length frames)%nat ->
  is_Some (speed_at frames (positions_of frames) frame k).
Proof.
  intros Hk. unfold speed_at.
  destruct (k =? 0)%nat eqn:Hz; [eauto|].
  apply Nat.eqb_neq in Hz.
  destruct (lookup_lt_is_Some_2 frames k Hk) as [this Hthis].
  destruct (lookup_lt_is_Some_2 frames (k - 1)%nat ltac:(lia)) as [before Hbefore].
  rewrite (positions_of_lookup _ _ _ Hbefore). cbn [mbind option_bind].
  rewrite (positions_of_lookup _ _ _ Hthis). cbn [mbind option_bind].
  rewrite Hthis. cbn [mbind option_bind].
  rewrite Hbefore. cbn [mbind option_bind]. eauto.
Qed.

Lemma speeds_of_Some (frames : list FrameSnapshot.t) :
  exists speeds, speeds_of frames = Some speeds /\
    length speeds = length frames.
Proof.
  unfold speeds_of.
  destruct (map_from_Some (speed_at frames (positions_of frames)) frames 0%nat)
    as (speeds & Hs & Hlen & _).
  - intros k a Hk. apply speed_at_is_Some. apply lookup_lt_Some in Hk. exact Hk.
  - exists speeds. auto.
Qed.

Lemma smoothSeries_Some (series : list R) (factor : R) :
  exists output, smoothSeries series factor = Some output /\
    length output = length series.
Proof.
  destruct (smooth_loop factor series [] 0%nat eq_refl) as (out & Hrun & Hl & _).
  exists out. auto.
Qed.

(** The callback of the [enrichedFrames] map succeeds when the four
    derived arrays have the length of [frames]. *)
Lemma enrich_at_Some (frames : list FrameSnapshot.t) (phases : list FramePhase)
    (positions : list Vec3) (seamAngles smoothedSpeeds : list R) frame (k : nat) :
  length phases = length frames -> length positions = length frames ->
  length seamAngles = length frames -> length smoothedSpeeds = length frames ->
  (k < length frames)%nat ->
  exists ph pos angle speed this,
    phases !! k = Some ph /\ positions !! k = Some pos /\
    seamAngles !! k = Some angle /\ smoothedSpeeds !! k = Some speed /\
    frames !! k = Some this /\
    enrich_at frames phases positions seamAngles smoothedSpeeds frame k =
      Some (FrameSnapshot.mk (FrameSnapshot.time frame) ph pos angle speed
              (at1 (FrameSnapshot.ballPosition this))
              (FrameSnapshot.keypoints frame)).
Proof.
  intros H1 H2 H3 H4 Hk.
  destruct (lookup_lt_is_Some_2 phases k ltac:(lia)) as [ph Hph].
  destruct (lookup_lt_is_Some_2 positions k ltac:(lia)) as [pos Hpos].
  destruct (lookup_lt_is_Some_2 seamAngles k ltac:(lia)) as [angle Hangle].
  destruct (lookup_lt_is_Some_2 smoothedSpeeds k ltac:(lia)) as [speed Hspeed].
  destruct (lookup_lt_is_Some_2 frames k ltac:(lia)) as [this Hthis].
  exists ph, pos, angle, speed, this. repeat (split; [assumption|]).
  unfold enrich_at. rewrite Hph. cbn [mbind option_bind].
  rewrite Hpos. cbn [mbind option_bind]. rewrite Hangle. cbn [mbind option_bind].
  rewrite Hspeed. cbn [mbind option_bind]. rewrite Hthis. reflexivity.
Qed.

(** A run on a non-empty input succeeds; its intermediate arrays, named as
    in the source, all have the length of the input. *)
Lemma enrichFrames_run (frames : list FrameSnapshot.t) :
  frames <> [] ->
  exists speeds smoothedSpeeds seamAngles enrichedFrames atImpact,
    let releaseFrame := releaseFrame_of smoothedSpeeds in
    let pitchFrame := pitchFrame_of (length frames) releaseFrame in
    let impactFrame := impactFrame_of (length frames) pitchFrame in
    speeds_of frames = Some speeds /\
    length speeds = length frames /\
    smoothSeries speeds default_factor = Some smoothedSpeeds /\
    length smoothedSpeeds = length frames /\
    smoothSeries (map FrameSnapshot.seamAngle frames) SEAM_SMOOTHING
      = Some seamAngles /\
    length seamAngles = length frames /\
    map_from (enrich_at frames
                (phases_of frames releaseFrame pitchFrame impactFrame)
                (positions_of frames) seamAngles smoothedSpeeds) 0 frames
      = Some enrichedFrames /\
    length enrichedFrames = length frames /\
    positions_of frames !! impactFrame = Some atImpact /\
    enrichFrames frames =
      Some (AnalysisResult.mk enrichedFrames (positions_of frames)
              (KeyMoments.mk releaseFrame pitchFrame impactFrame)
              (Summary.mk
                 (js_or_undef (smoothedSpeeds !! releaseFrame) 122)
                 (js_or_undef (seamAngles !! releaseFrame) 14)
                 (nullish (FrameSnapshot.releaseHeight <$>
                             enrichedFrames !! releaseFrame) 1.85)
                 (Math_max 0 (PITCH_LENGTH_METERS - at2 atImpact))
                 (js_or_undef
                    (smoothedSpeeds !! floor_scaled releaseFrame 0.5) 22))).
Proof.
  intros Hne.
  assert (Hn : (0 < length frames)%nat) by (destruct frames; [congruence|simpl; lia]).
  destruct (speeds_of_Some frames) as (speeds & Hspeeds & Hls).
  destruct (smoothSeries_Some speeds default_factor) as (smoothed & Hsm & Hlsm).
  destruct (smoothSeries_Some (map FrameSnapshot.seamAngle frames) SEAM_SMOOTHING)
    as (seams & Hse & Hlse).
  rewrite length_map in Hlse.
  set (releaseFrame := releaseFrame_of smoothed).
  set (pitchFrame := pitchFrame_of (length frames) releaseFrame).
  set (impactFrame := impactFrame_of (length frames) pitchFrame).
  assert (Hrel : (releaseFrame < length frames)%nat).
  { unfold releaseFrame. rewrite <- Hls, <- Hlsm.
    apply releaseFrame_of_lt. lia. }
  pose proof (pitchFrame_of_bounds (length frames) releaseFrame Hrel) as Hpitch.
  fold pitchFrame in Hpitch.
  pose proof (impactFrame_of_bounds (length frames) pitchFrame ltac:(lia)) as Himpact.
  fold impactFrame in Himpact.
  destruct (map_from_Some
              (enrich_at frames
                 (phases_of frames releaseFrame pitchFrame impactFrame)
                 (positions_of frames) seams smoothed) frames 0%nat)
    as (enriched & Hen & Hlen & _).
  { intros k a Hk. apply lookup_lt_Some in Hk. cbn [Nat.add].
    destruct (enrich_at_Some frames
                (phases_of frames releaseFrame pitchFrame impactFrame)
                (positions_of frames) seams smoothed a k)
      as (? & ? & ? & ? & ? & _ & _ & _ & _ & _ & ->);
      try lia; eauto using positions_of_length.
    unfold phases_of. apply length_imap. }
  destruct (lookup_lt_is_Some_2 (positions_of frames) impactFrame) as [atImpact Hat].
  { rewrite positions_of_length. lia. }
  exists speeds, smoothed, seams, enriched, atImpact. cbv zeta.
  repeat (split; [first [assumption | lia]|]).
  unfold enrichFrames.
  destruct (Nat.eqb_spec (length frames) 0%nat) as [Hz|_]; [lia|].
  rewrite Hspeeds. cbn [mbind option_bind].
  rewrite Hsm. cbn [mbind option_bind].
  rewrite Hse. cbn [mbind option_bind].
  fold releaseFrame. fold pitchFrame. fold impactFrame.
  rewrite Hen. cbn [mbind option_bind].
  rewrite Hat. reflexivity.
Qed.

(** ** Structure of the result *)

(** C1: [enrichFrames] returns a result whose trajectory has the length of
    its frames and whose key moments satisfy
    [0 <= releaseFrame <= pitchFrame <= impactFrame < frames.length]; on a
    non-empty input of length [N] the result has [N] frames, so the key
    moments are at most [N - 1] (also for [N = 1]); on the empty input it
    has one frame and the three indices are 0. *)
Theorem enrichFrames_invariant (frames : list FrameSnapshot.t) :
  exists result,
    enrichFrames frames = Some result /\
    let km := AnalysisResult.keyMoments result in
    length (AnalysisResult.trajectory result)
      = length (AnalysisResult.frames result) /\
    (0 <= KeyMoments.releaseFrame km <= KeyMoments.pitchFrame km)%nat /\
    (KeyMoments.pitchFrame km <= KeyMoments.impactFrame km
       < length (AnalysisResult.frames result))%nat /\
    (frames <> [] ->
       length (AnalysisResult.frames result) = length frames /\
       length (AnalysisResult.trajectory result) = length frames /\
       (KeyMoments.impactFrame km <= length frames - 1)%nat) /\
    (frames = [] ->
       length (AnalysisResult.frames result) = 1%nat /\
       KeyMoments.releaseFrame km = 0%nat /\
       KeyMoments.pitchFrame km = 0%nat /\
       KeyMoments.impactFrame km = 0%nat).
Proof.
  destruct frames as [|frame rest].
  - exists fallback_result. split; [reflexivity|]. simpl.
    repeat split; try lia; congruence.
  - destruct (enrichFrames_run (frame :: rest) ltac:(congruence))
      as (speeds & smoothed & seams & enriched & atImpact & H).
    cbv zeta in H.
    destruct H as (_ & Hls & _ & Hlsm & _ & _ & _ & Hlen & _ & Hrun).
    eexists. split; [exact Hrun|]. cbn [AnalysisResult.keyMoments
      AnalysisResult.trajectory AnalysisResult.frames KeyMoments.releaseFrame
      KeyMoments.pitchFrame KeyMoments.impactFrame].
    set (n := length (frame :: rest)) in *.
    assert (Hn : (0 < n)%nat) by (unfold n; simpl; lia).
    assert (Hrel : (releaseFrame_of smoothed < n)%nat).
    { pose proof (releaseFrame_of_lt smoothed ltac:(lia)). lia. }
    pose proof (pitchFrame_of_bounds n _ Hrel) as Hp.
    pose proof (impactFrame_of_bounds n (pitchFrame_of n (releaseFrame_of smoothed))
                  ltac:(lia)) as Hi.
    rewrite positions_of_length, Hlen. fold n.
    repeat split; first [lia | congruence].
Qed.

(** C2: on the empty input [enrichFrames] returns the fixed fallback
    record, and on every input it returns a result. *)
Theorem enrichFrames_empty_and_total :
  enrichFrames [] =
    Some (AnalysisResult.mk
            [FrameSnapshot.mk 0 RunUp (0, 1.5, 0) 15 115 1.86 []]
            [(0, 1.5, 0)]
            (KeyMoments.mk 0 0 0)
            (Summary.mk 115 15 1.86 5.4 24)) /\
  forall frames, is_Some (enrichFrames frames).
Proof.
  split; [reflexivity|].
  intros frames. destruct frames as [|frame rest].
  - eexists. reflexivity.
  - destruct (enrichFrames_run (frame :: rest) ltac:(congruence))
      as (speeds & smoothed & seams & enriched & atImpact & H).
    cbv zeta in H. destruct H as (_ & _ & _ & _ & _ & _ & _ & _ & _ & Hrun).
    eexists. exact Hrun.
Qed.


(** ** Depth assignment *)

Lemma depth_of_denominator_pos (n : nat) : 0 < INR (Nat.max (n - 1) 1).
Proof. apply lt_0_INR. lia. Qed.

Lemma depth_of_mono (n i j : nat) :
  (i <= j)%nat -> depth_of n i <= depth_of n j.
Proof.
  intros Hij. unfold depth_of, PITCH_LENGTH_METERS.
  pose proof (depth_of_denominator_pos n) as Hd.
  apply le_INR in Hij.
  apply Rmult_le_compat_r; [lra|].
  unfold Rdiv. apply Rmult_le_compat_r; [|exact Hij].
  left. apply Rinv_0_lt_compat. exact Hd.
Qed.

Lemma depth_of_first (n : nat) : depth_of n 0 = 0.
Proof. unfold depth_of. simpl. unfold Rdiv. ring. Qed.

Lemma depth_of_last (n : nat) : (1 < n)%nat -> depth_of n (n - 1) = 20.12.
Proof.
  intros Hn. unfold depth_of, PITCH_LENGTH_METERS.
  replace (Nat.max (n - 1) 1) with (n - 1)%nat by lia.
  assert (0 < INR (n - 1)) by (apply lt_0_INR; lia).
  field. lra.
Qed.

(** C5: on a non-empty input of [N] frames the depth of trajectory point
    [i] is [(i / max(N - 1, 1)) * 20.12]; the depths never decrease along
    the index, the first is 0 and, when [N > 1], the last is 20.12. *)
Theorem depth_assignment (frames : list FrameSnapshot.t) :
  frames <> [] ->
  exists result,
    enrichFrames frames = Some result /\
    let trajectory := AnalysisResult.trajectory result in
    let N := length frames in
    (forall i, (i < N)%nat -> exists p,
        trajectory !! i = Some p /\
        at2 p = INR i / INR (Nat.max (N - 1) 1) * 20.12) /\
    (forall i j p q, (i <= j)%nat ->
        trajectory !! i = Some p -> trajectory !! j = Some q ->
        at2 p <= at2 q) /\
    (exists p, trajectory !! 0%nat = Some p /\ at2 p = 0) /\
    ((1 < N)%nat ->
       exists p, trajectory !! (N - 1)%nat = Some p /\ at2 p = 20.12).
Proof.
  intros Hne.
  destruct (enrichFrames_run frames Hne)
    as (speeds & smoothed & seams & enriched & atImpact & H).
  cbv zeta in H. destruct H as (_ & _ & _ & _ & _ & _ & _ & _ & _ & Hrun).
  eexists. split; [exact Hrun|]. cbn [AnalysisResult.trajectory].
  assert (Hn : (0 < length frames)%nat) by (destruct frames; [congruence|simpl; lia]).
  assert (Hat : forall i p, positions_of frames !! i = Some p ->
                  at2 p = depth_of (length frames) i).
  { intros i p Hp. unfold positions_of in Hp.
    rewrite list_lookup_imap in Hp.
    destruct (frames !! i); [|discriminate]. simpl in Hp.
    inversion Hp. reflexivity. }
  assert (Hsome : forall i, (i < length frames)%nat ->
                    exists p, positions_of frames !! i = Some p).
  { intros i Hi. apply lookup_lt_is_Some_2. rewrite positions_of_length. exact Hi. }
  repeat split.
  - intros i Hi. destruct (Hsome i Hi) as [p Hp]. exists p. split; [exact Hp|].
    rewrite (Hat i p Hp). reflexivity.
  - intros i j p q Hij Hp Hq. rewrite (Hat i p Hp), (Hat j q Hq).
    apply depth_of_mono. exact Hij.
  - destruct (Hsome 0%nat Hn) as [p Hp]. exists p. split; [exact Hp|].
    rewrite (Hat _ p Hp). apply depth_of_first.
  - intros HN. destruct (Hsome (length frames - 1)%nat ltac:(lia)) as [p Hp].
    exists p. split; [exact Hp|]. rewrite (Hat _ p Hp). apply depth_of_last. exact HN.
Qed.

(** ** Keypoint lookup *)

Lemma find_named_None (n : string) (keypoints : list Keypoint.t) :
  find_named n keypoints = None <->
  forall kp, kp ∈ keypoints -> Keypoint.name kp <> Some n.
Proof.
  unfold find_named. induction keypoints as [|kp0 rest IH]; simpl.
  - split; [|reflexivity]. intros _ kp Hin. inversion Hin.
  - destruct (bool_decide_reflect (Keypoint.name kp0 = Some n)) as [Heq|Hne].
    + split; [discriminate|]. intros Hall. exfalso.
      apply (Hall kp0); [left|exact Heq].
    + rewrite IH. split.
      * intros Hall kp Hin. inversion Hin; subst; auto.
      * intros Hall kp Hin. apply Hall. right. exact Hin.
Qed.

Lemma find_named_Some (n : string) (keypoints : list Keypoint.t) kp :
  find_named n keypoints = Some kp ->
  kp ∈ keypoints /\ Keypoint.name kp = Some n.
Proof.
  unfold find_named. induction keypoints as [|kp0 rest IH]; simpl.
  - discriminate.
  - destruct (bool_decide_reflect (Keypoint.name kp0 = Some n)) as [Heq|Hne].
    + intros [= <-]. split; [left|exact Heq].
    + intros Hf. destruct (IH Hf) as [Hin Hname]. split; [right; exact Hin|exact Hname].
Qed.

(** ** Seam estimator *)

Lemma find_named_first (n : string) (before after : list Keypoint.t) kp :
  Keypoint.name kp = Some n ->
  (forall q, q ∈ before -> Keypoint.name q <> Some n) ->
  find_named n (before ++ kp :: after) = Some kp.
Proof.
  intros Hkp Hbefore. unfold find_named.
  induction before as [|q before IH]; simpl.
  - rewrite bool_decide_eq_true_2 by exact Hkp. reflexivity.
  - rewrite bool_decide_eq_false_2.
    + apply IH. intros q' Hq'. apply Hbefore. right. exact Hq'.
    + apply Hbefore. left.
Qed.

Lemma find_named_split (n : string) (keypoints : list Keypoint.t) kp :
  find_named n keypoints = Some kp ->
  exists before after,
    keypoints = before ++ kp :: after /\
    Keypoint.name kp = Some n /\
    forall q, q ∈ before -> Keypoint.name q <> Some n.
Proof.
  unfold find_named. induction keypoints as [|kp0 rest IH]; simpl.
  - discriminate.
  - destruct (bool_decide_reflect (Keypoint.name kp0 = Some n)) as [Heq|Hne].
    + intros [= <-]. exists [], rest. split; [reflexivity|].
      split; [exact Heq|]. intros q Hq. inversion Hq.
    + intros Hf. destruct (IH Hf) as (before & after & -> & Hname & Hbefore).
      exists (kp0 :: before), after. split; [reflexivity|].
      split; [exact Hname|]. intros q Hq. inversion Hq; subst; auto.
Qed.

(** The keypoint that [find(first) ?? find(second)] selects, read off the
    list: the first keypoint named [first], or, when none is named
    [first], the first keypoint named [second]. *)
Lemma select_named_Some (first second : string) (keypoints : list Keypoint.t)
    before kp after :
  keypoints = before ++ kp :: after ->
  Keypoint.name kp = Some first /\
    (forall q, q ∈ before -> Keypoint.name q <> Some first) \/
  Keypoint.name kp = Some second /\
    (forall q, q ∈ keypoints -> Keypoint.name q <> Some first) /\
    (forall q, q ∈ before -> Keypoint.name q <> Some second) ->
  nullish_opt (find_named first keypoints) (find_named second keypoints)
    = Some kp.
Proof.
  intros Heq [[Hname Hbefore]|(Hname & Hnone & Hbefore)].
  - rewrite Heq, (find_named_first _ _ _ _ Hname Hbefore). reflexivity.
  - replace (find_named first keypoints) with (@None Keypoint.t)
      by (symmetry; apply find_named_None; exact Hnone).
    rewrite Heq, (find_named_first _ _ _ _ Hname Hbefore). reflexivity.
Qed.

Lemma select_named_exists (first second : string) (keypoints : list Keypoint.t) :
  (exists q, q ∈ keypoints /\
     (Keypoint.name q = Some first \/ Keypoint.name q = Some second)) ->
  exists kp before after,
    keypoints = before ++ kp :: after /\
    (Keypoint.name kp = Some first /\
       (forall q, q ∈ before -> Keypoint.name q <> Some first) \/
     Keypoint.name kp = Some second /\
       (forall q, q ∈ keypoints -> Keypoint.name q <> Some first) /\
       (forall q, q ∈ before -> Keypoint.name q <> Some second)).
Proof.
  intros (q & Hq & Hname).
  destruct (find_named first keypoints) as [kp|] eqn:Hfirst.
  - destruct (find_named_split _ _ _ Hfirst) as (before & after & Heq & Hn & Hb).
    exists kp, before, after. split; [exact Heq|]. left. auto.
  - pose proof (proj1 (find_named_None first keypoints) Hfirst) as Hnone.
    destruct (find_named second keypoints) as [kp|] eqn:Hsecond.
    + destruct (find_named_split _ _ _ Hsecond) as (before & after & Heq & Hn & Hb).
      exists kp, before, after. split; [exact Heq|]. right. auto.
    + pose proof (proj1 (find_named_None second keypoints) Hsecond) as Hnone2.
      exfalso. destruct Hname as [Hn|Hn];
        [apply (Hnone q Hq Hn)|apply (Hnone2 q Hq Hn)].
Qed.

(** The four outcomes of [computeSeamAngle] in terms of its two lookups. *)
Lemma computeSeamAngle_cases (keypoints : list Keypoint.t) :
  (seam_wrist keypoints = None -> computeSeamAngle keypoints = 12) /\
  (seam_elbow keypoints = None -> computeSeamAngle keypoints = 12) /\
  (forall wrist elbow,
      seam_wrist keypoints = Some wrist -> seam_elbow keypoints = Some elbow ->
      Keypoint.x wrist = None \/ Keypoint.y wrist = None \/
      Keypoint.x elbow = None \/ Keypoint.y elbow = None ->
      computeSeamAngle keypoints = 12) /\
  (forall wrist elbow wx wy ex ey,
      seam_wrist keypoints = Some wrist -> seam_elbow keypoints = Some elbow ->
      Keypoint.x wrist = Some wx -> Keypoint.y wrist = Some wy ->
      Keypoint.x elbow = Some ex -> Keypoint.y elbow = Some ey ->
      computeSeamAngle keypoints =
        Math_round (Math_atan2 (wy - ey) (wx - ex) * 180 / PI * 10) / 10).
Proof.
  repeat split.
  - intros Hw. unfold computeSeamAngle. rewrite Hw. reflexivity.
  - intros He. unfold computeSeamAngle. rewrite He.
    destruct (seam_wrist keypoints); reflexivity.
  - intros wrist elbow Hw He Hmiss. unfold computeSeamAngle. rewrite Hw, He.
    destruct (Keypoint.x wrist), (Keypoint.y wrist),
      (Keypoint.x elbow), (Keypoint.y elbow); try reflexivity.
    destruct Hmiss as [H|[H|[H|H]]]; discriminate.
  - intros wrist elbow wx wy ex ey Hw He Hwx Hwy Hex Hey.
    unfold computeSeamAngle. rewrite Hw, He, Hwx, Hwy, Hex, Hey. reflexivity.
Qed.

(** C7: [computeSeamAngle] returns 12 when no keypoint is named
    [right_wrist] or [left_wrist] and when none is named [right_elbow] or
    [left_elbow].  Otherwise a wrist and an elbow are selected: the wrist
    is the first keypoint of the set named [right_wrist], or, when none is
    so named, the first one named [left_wrist]; the elbow likewise with
    [right_elbow] and [left_elbow].  When the selected wrist or elbow lacks
    its x or y the result is 12, whatever the other keypoints are;
    otherwise it is the [atan2] angle of the elbow-to-wrist vector in
    degrees, rounded to one decimal place. *)
Theorem computeSeamAngle_contract (keypoints : list Keypoint.t) :
  let selected (first second : string) (kp : Keypoint.t) : Prop :=
    exists before after,
      keypoints = before ++ kp :: after /\
      (Keypoint.name kp = Some first /\
         (forall q, q ∈ before -> Keypoint.name q <> Some first) \/
       Keypoint.name kp = Some second /\
         (forall q, q ∈ keypoints -> Keypoint.name q <> Some first) /\
         (forall q, q ∈ before -> Keypoint.name q <> Some second)) in
  ((forall kp, kp ∈ keypoints ->
      Keypoint.name kp <> Some "right_wrist" /\
      Keypoint.name kp <> Some "left_wrist") ->
   computeSeamAngle keypoints = 12) /\
  ((forall kp, kp ∈ keypoints ->
      Keypoint.name kp <> Some "right_elbow" /\
      Keypoint.name kp <> Some "left_elbow") ->
   computeSeamAngle keypoints = 12) /\
  ((exists q, q ∈ keypoints /\
      (Keypoint.name q = Some "right_wrist" \/
       Keypoint.name q = Some "left_wrist")) ->
   exists wrist, selected "right_wrist" "left_wrist" wrist) /\
  ((exists q, q ∈ keypoints /\
      (Keypoint.name q = Some "right_elbow" \/
       Keypoint.name q = Some "left_elbow")) ->
   exists elbow, selected "right_elbow" "left_elbow" elbow) /\
  (forall wrist elbow,
      selected "right_wrist" "left_wrist" wrist ->
      selected "right_elbow" "left_elbow" elbow ->
      (Keypoint.x wrist = None \/ Keypoint.y wrist = None \/
       Keypoint.x elbow = None \/ Keypoint.y elbow = None ->
       computeSeamAngle keypoints = 12) /\
      (forall wx wy ex ey,
         Keypoint.x wrist = Some wx -> Keypoint.y wrist = Some wy ->
         Keypoint.x elbow = Some ex -> Keypoint.y elbow = Some ey ->
         computeSeamAngle keypoints =
           Math_round (Math_atan2 (wy - ey) (wx - ex) * 180 / PI * 10) / 10)).
Proof.
  intros selected.
  destruct (computeSeamAngle_cases keypoints) as (Hnw & Hne & Hmiss & Hangle).
  split; [|split; [|split; [|split]]].
  - intros Hall. apply Hnw. unfold seam_wrist.
    replace (find_named "right_wrist" keypoints) with (@None Keypoint.t)
      by (symmetry; apply find_named_None; intros kp Hin; apply (Hall kp Hin)).
    replace (find_named "left_wrist" keypoints) with (@None Keypoint.t)
      by (symmetry; apply find_named_None; intros kp Hin; apply (Hall kp Hin)).
    reflexivity.
  - intros Hall. apply Hne. unfold seam_elbow.
    replace (find_named "right_elbow" keypoints) with (@None Keypoint.t)
      by (symmetry; apply find_named_None; intros kp Hin; apply (Hall kp Hin)).
    replace (find_named "left_elbow" keypoints) with (@None Keypoint.t)
      by (symmetry; apply find_named_None; intros kp Hin; apply (Hall kp Hin)).
    reflexivity.
  - intros Hex.
    destruct (select_named_exists "right_wrist" "left_wrist" keypoints Hex)
      as (kp & before & after & Heq & Hsel).
    exists kp, before, after. auto.
  - intros Hex.
    destruct (select_named_exists "right_elbow" "left_elbow" keypoints Hex)
      as (kp & before & after & Heq & Hsel).
    exists kp, before, after. auto.
  - intros wrist elbow (bw & aw & Heqw & Hselw) (be & ae & Heqe & Hsele).
    assert (Hw : seam_wrist keypoints = Some wrist)
      by (apply (select_named_Some _ _ _ bw wrist aw Heqw Hselw)).
    assert (He : seam_elbow keypoints = Some elbow)
      by (apply (select_named_Some _ _ _ be elbow ae Heqe Hsele)).
    split.
    + apply (Hmiss wrist elbow Hw He).
    + intros wx wy ex ey. apply (Hangle wrist elbow wx wy ex ey Hw He).
Qed.

(** On [forearm_keypoints] the elbow and the wrist are both selected and
    the angle of the vector (1, 1) is computed. *)
Lemma computeSeamAngle_contract_witness :
  computeSeamAngle forearm_keypoints =
    Math_round (Math_atan2 (1 - 0) (1 - 0) * 180 / PI * 10) / 10.
Proof.
  destruct (computeSeamAngle_contract forearm_keypoints)
    as (_ & _ & _ & _ & Hsel).
  destruct (Hsel (Keypoint.mk (Some 1) (Some 1) (Some 0.9) (Some "right_wrist"))
              (Keypoint.mk (Some 0) (Some 0) (Some 0.9) (Some "right_elbow")))
    as [_ Hangle].
  - exists [Keypoint.mk (Some 0) (Some 0) (Some 0.9) (Some "right_elbow")], [].
    split; [reflexivity|]. left. split; [reflexivity|].
    intros q Hq. apply list_elem_of_In in Hq. destruct Hq as [<-|[]].
    discriminate.
  - exists [], [Keypoint.mk (Some 1) (Some 1) (Some 0.9) (Some "right_wrist")].
    split; [reflexivity|]. left. split; [reflexivity|].
    intros q Hq. inversion Hq.
  - apply Hangle; reflexivity.
Defined.

(** A forearm at 45 degrees in image coordinates. *)
Example computeSeamAngle_forearm : computeSeamAngle forearm_keypoints = 45.
Proof.
  unfold computeSeamAngle.
  replace (seam_wrist forearm_keypoints)
    with (Some (Keypoint.mk (Some 1) (Some 1) (Some 0.9) (Some "right_wrist")))
    by reflexivity.
  replace (seam_elbow forearm_keypoints)
    with (Some (Keypoint.mk (Some 0) (Some 0) (Some 0.9) (Some "right_elbow")))
    by reflexivity.
  cbn [Keypoint.x Keypoint.y nullish].
  unfold Math_atan2. destruct (Rlt_dec 0 (1 - 0)) as [_|Hn]; [|lra].
  replace ((1 - 0) / (1 - 0)) with 1 by lra. rewrite atan_1.
  replace (PI / 4 * 180 / PI * 10) with (IZR 450) by (field; apply PI_neq0).
  unfold Math_round. rewrite (Zfloor_eq 450); lra.
Qed.

(** The selected wrist is a keypoint of the set named [right_wrist], or
    one named [left_wrist] when none is named [right_wrist]. *)
Lemma seam_wrist_Some (keypoints : list Keypoint.t) wrist :
  seam_wrist keypoints = Some wrist ->
  wrist ∈ keypoints /\
  (Keypoint.name wrist = Some "right_wrist" \/
   Keypoint.name wrist = Some "left_wrist" /\
   forall kp, kp ∈ keypoints -> Keypoint.name kp <> Some "right_wrist").
Proof.
  unfold seam_wrist.
  destruct (find_named "right_wrist" keypoints) as [kp|] eqn:Hr; simpl.
  - intros [= <-]. apply find_named_Some in Hr. tauto.
  - intros Hl. apply find_named_Some in Hl.
    rewrite find_named_None in Hr. tauto.
Qed.

(** ** Kinematic mapper *)

Lemma mapper_wrist_nonempty (keypoints : list Keypoint.t) :
  keypoints <> [] -> is_Some (mapper_wrist keypoints).
Proof.
  intros Hne. unfold mapper_wrist.
  destruct (find_named "right_wrist" keypoints); simpl; [eauto|].
  destruct (find_named "left_wrist" keypoints); simpl; [eauto|].
  destruct keypoints; [congruence|]. simpl. eauto.
Qed.

(** C9: on a non-empty keypoint set and a frame of non-zero width and
    height the mapper returns a position [(lateral, vertical, 0)] with
    [vertical >= 0.4]; a missing x of the selected keypoint is replaced by
    [width / 2], giving lateral 0, and a missing y by [0.6 * height],
    giving vertical 1.04. *)
Theorem mapKeypointsToBallPosition_missing (width height : R)
    (keypoints : list Keypoint.t) :
  width <> 0 -> height <> 0 -> keypoints <> [] ->
  exists wrist lateral vertical,
    mapper_wrist keypoints = Some wrist /\
    mapKeypointsToBallPosition width height keypoints = (lateral, vertical, 0) /\
    lateral = (nullish (Keypoint.x wrist) (width / 2) / width - 0.5) * 3.6 /\
    vertical =
      Rmax 0.4 ((1 - nullish (Keypoint.y wrist) (height * 0.6) / height) * 2.6) /\
    0.4 <= vertical /\
    (Keypoint.x wrist = None -> lateral = 0) /\
    (Keypoint.y wrist = None -> vertical = 1.04).
Proof.
  intros Hw Hh Hne.
  destruct (mapper_wrist_nonempty keypoints Hne) as [wrist Hwrist].
  unfold mapKeypointsToBallPosition. rewrite Hwrist.
  eexists wrist, _, _. split; [reflexivity|]. split; [reflexivity|].
  split; [reflexivity|]. split; [reflexivity|]. unfold Math_max.
  split; [apply Rmax_l|]. split.
  - intros ->. cbn [nullish]. decimals. field. exact Hw.
  - intros ->. cbn [nullish].
    replace ((1 - height * 0.6 / height) * 2.6) with 1.04
      by (decimals; field; exact Hh).
    apply Rmax_right. lra.
Qed.

(** ** Telemetry aggregator *)

(** What the [enrichedFrames] map stored at an index of the input. *)
Lemma enriched_lookup (frames : list FrameSnapshot.t) phases positions
    seamAngles smoothedSpeeds enrichedFrames (k : nat) frame :
  map_from (enrich_at frames phases positions seamAngles smoothedSpeeds)
    0 frames = Some enrichedFrames ->
  frames !! k = Some frame ->
  exists snap, enrichedFrames !! k = Some snap /\
    FrameSnapshot.releaseHeight snap = at1 (FrameSnapshot.ballPosition frame) /\
    smoothedSpeeds !! k = Some (FrameSnapshot.speedKph snap) /\
    seamAngles !! k = Some (FrameSnapshot.seamAngle snap) /\
    positions !! k = Some (FrameSnapshot.ballPosition snap) /\
    phases !! k = Some (FrameSnapshot.phase snap).
Proof.
  intros Hmap Hk. destruct (map_from_inv _ _ _ _ Hmap) as [_ Hlook].
  destruct (Hlook k frame Hk) as (snap & Hsnap & Hat). cbn [Nat.add] in Hat.
  exists snap. split; [exact Hsnap|]. unfold enrich_at in Hat.
  destruct (phases !! k); [|discriminate].
  destruct (positions !! k); [|discriminate].
  destruct (seamAngles !! k); [|discriminate].
  destruct (smoothedSpeeds !! k); [|discriminate].
  rewrite Hk in Hat. cbn [mbind option_bind] in Hat.
  inversion Hat. cbn. auto.
Qed.

(** The five summary values of a run on a non-empty input, in terms of the
    values they are computed from; none of the lookups is [undefined]. *)
Lemma summary_of_run (frames : list FrameSnapshot.t) :
  frames <> [] ->
  exists result speeds smoothedSpeeds seamAngles
         atRelease atRunup angle snap input atImpact,
    enrichFrames frames = Some result /\
    speeds_of frames = Some speeds /\
    smoothSeries speeds default_factor = Some smoothedSpeeds /\
    smoothSeries (map FrameSnapshot.seamAngle frames) SEAM_SMOOTHING
      = Some seamAngles /\
    let km := AnalysisResult.keyMoments result in
    let sm := AnalysisResult.summary result in
    let releaseFrame := KeyMoments.releaseFrame km in
    (releaseFrame < length frames)%nat /\
    smoothedSpeeds !! releaseFrame = Some atRelease /\
    smoothedSpeeds !! floor_scaled releaseFrame 0.5 = Some atRunup /\
    seamAngles !! releaseFrame = Some angle /\
    AnalysisResult.frames result !! releaseFrame = Some snap /\
    frames !! releaseFrame = Some input /\
    FrameSnapshot.releaseHeight snap = at1 (FrameSnapshot.ballPosition input) /\
    AnalysisResult.trajectory result !! KeyMoments.impactFrame km
      = Some atImpact /\
    Summary.releaseSpeedKph sm = (if Req_dec_T atRelease 0 then 122 else atRelease) /\
    Summary.runupVelocityKph sm = (if Req_dec_T atRunup 0 then 22 else atRunup) /\
    Summary.seamAngle sm = (if Req_dec_T angle 0 then 14 else angle) /\
    Summary.releaseHeight sm = FrameSnapshot.releaseHeight snap /\
    Summary.predictedImpactMeters sm = Rmax 0 (20.12 - at2 atImpact).
Proof.
  intros Hne.
  destruct (enrichFrames_run frames Hne)
    as (speeds & smoothed & seams & enriched & atImpact & H).
  cbv zeta in H.
  destruct H as (Hsp & Hls & Hsm & Hlsm & Hse & Hlse & Hen & Hlen & Hat & Hrun).
  set (releaseFrame := releaseFrame_of smoothed) in *.
  assert (Hrel : (releaseFrame < length frames)%nat).
  { pose proof (releaseFrame_of_lt smoothed ltac:(destruct frames; [congruence|simpl in *; lia])).
    unfold releaseFrame. lia. }
  assert (Hrun_lt : (floor_scaled releaseFrame 0.5 < length frames)%nat).
  { rewrite (floor_scaled_div releaseFrame 1 2 0.5); [|lia|simpl; lra].
    pose proof (Nat.Div0.div_le_upper_bound (releaseFrame * 1) 2 releaseFrame). lia. }
  destruct (lookup_lt_is_Some_2 smoothed releaseFrame ltac:(lia)) as [atRelease HatR].
  destruct (lookup_lt_is_Some_2 smoothed (floor_scaled releaseFrame 0.5) ltac:(lia))
    as [atRunup HatU].
  destruct (lookup_lt_is_Some_2 seams releaseFrame ltac:(lia)) as [angle Hangle].
  destruct (lookup_lt_is_Some_2 frames releaseFrame Hrel) as [input Hinput].
  destruct (enriched_lookup _ _ _ _ _ _ _ _ Hen Hinput) as (snap & Hsnap & Hheight & _).
  eexists _, speeds, smoothed, seams, atRelease, atRunup, angle, snap, input, atImpact.
  split; [exact Hrun|].
  cbn [AnalysisResult.keyMoments AnalysisResult.summary AnalysisResult.frames
       AnalysisResult.trajectory KeyMoments.releaseFrame KeyMoments.impactFrame
       Summary.releaseSpeedKph Summary.runupVelocityKph Summary.seamAngle
       Summary.releaseHeight Summary.predictedImpactMeters].
  fold releaseFrame. rewrite HatR, HatU, Hangle, Hsnap.
  repeat (split; [first [assumption | reflexivity]|]). reflexivity.
Qed.

(** C4 (amended): on a non-empty input the release frame indexes every
    array it is used on, so no summary value is computed from [undefined].
    [releaseSpeedKph], [runupVelocityKph] and [seamAngle] are the smoothed
    speed at the release frame, the smoothed speed at
    [floor(releaseFrame * 0.5)] and the smoothed seam angle at the release
    frame, replaced by 122, 22 and 14 exactly when that value is 0.
    [releaseHeight] is the release-height field of the release-frame
    snapshot (the raw vertical position of that input frame), kept also
    when it is 0.  [predictedImpactMeters] is
    [max(0, 20.12 - depth at impactFrame)]. *)
Theorem summary_defaults (frames : list FrameSnapshot.t) :
  frames <> [] ->
  exists result speeds smoothedSpeeds seamAngles
         atRelease atRunup angle snap atImpact,
    enrichFrames frames = Some result /\
    speeds_of frames = Some speeds /\
    smoothSeries speeds default_factor = Some smoothedSpeeds /\
    smoothSeries (map FrameSnapshot.seamAngle frames) SEAM_SMOOTHING
      = Some seamAngles /\
    let km := AnalysisResult.keyMoments result in
    let sm := AnalysisResult.summary result in
    smoothedSpeeds !! KeyMoments.releaseFrame km = Some atRelease /\
    smoothedSpeeds !! floor_scaled (KeyMoments.releaseFrame km) 0.5
      = Some atRunup /\
    seamAngles !! KeyMoments.releaseFrame km = Some angle /\
    AnalysisResult.frames result !! KeyMoments.releaseFrame km = Some snap /\
    AnalysisResult.trajectory result !! KeyMoments.impactFrame km
      = Some atImpact /\
    (atRelease = 0 -> Summary.releaseSpeedKph sm = 122) /\
    (atRelease <> 0 -> Summary.releaseSpeedKph sm = atRelease) /\
    (atRunup = 0 -> Summary.runupVelocityKph sm = 22) /\
    (atRunup <> 0 -> Summary.runupVelocityKph sm = atRunup) /\
    (angle = 0 -> Summary.seamAngle sm = 14) /\
    (angle <> 0 -> Summary.seamAngle sm = angle) /\
    Summary.releaseHeight sm = FrameSnapshot.releaseHeight snap /\
    Summary.predictedImpactMeters sm = Rmax 0 (20.12 - at2 atImpact).
Proof.
  intros Hne.
  destruct (summary_of_run frames Hne)
    as (result & speeds & smoothed & seams & atRelease & atRunup & angle &
        snap & input & atImpact & Hrun & Hsp & Hsm & Hse & H).
  cbv zeta in H.
  destruct H as (_ & HatR & HatU & Hangle & Hsnap & _ & _ & Hat &
                 Hrs & Hru & Hsa & Hrh & Hpi).
  exists result, speeds, smoothed, seams, atRelease, atRunup, angle, snap, atImpact.
  cbv zeta. repeat (split; [assumption|]).
  rewrite Hrs, Hru, Hsa.
  destruct (Req_dec_T atRelease 0), (Req_dec_T atRunup 0), (Req_dec_T angle 0);
    repeat split; solve [assumption | reflexivity | intros; contradiction].
Qed.

(** The claim as written fails for [releaseHeight]: a release height of 0
    is returned as 0, not replaced by 1.85. *)
Lemma releaseHeight_zero_kept :
  exists result snap,
    enrichFrames [grounded_frame] = Some result /\
    AnalysisResult.frames result
      !! KeyMoments.releaseFrame (AnalysisResult.keyMoments result) = Some snap /\
    FrameSnapshot.releaseHeight snap = 0 /\
    Summary.releaseHeight (AnalysisResult.summary result) = 0 /\
    Summary.releaseHeight (AnalysisResult.summary result) <> 1.85.
Proof.
  destruct (summary_of_run [grounded_frame] ltac:(discriminate))
    as (result & speeds & smoothed & seams & atRelease & atRunup & angle &
        snap & input & atImpact & Hrun & _ & _ & _ & H).
  cbv zeta in H.
  destruct H as (Hrel & _ & _ & _ & Hsnap & Hinput & Hheight & _ & _ & _ & _ & Hrh & _).
  exists result, snap. split; [exact Hrun|]. split; [exact Hsnap|].
  assert (Hzero : FrameSnapshot.releaseHeight snap = 0).
  { rewrite Hheight. simpl in Hrel.
    destruct (KeyMoments.releaseFrame (AnalysisResult.keyMoments result)); [|lia].
    simpl in Hinput. inversion Hinput. reflexivity. }
  rewrite Hrh, Hzero. repeat split. lra.
Qed.

(** ** Instantaneous speed *)

Lemma Math_round_eq (x : R) (z : Z) :
  IZR z - / 2 <= x < IZR z + / 2 -> Math_round x = IZR z.
Proof.
  intros H. unfold Math_round. f_equal. apply Zfloor_eq. lra.
Qed.

Lemma Math_round_ge (x : R) (z : Z) :
  IZR z - / 2 <= x -> IZR z <= Math_round x.
Proof.
  intros H. unfold Math_round. apply IZR_le, Zfloor_lub. lra.
Qed.

(** Consecutive frames are [20.12 / (n - 1)] metres apart in depth. *)
Lemma depth_step (n k : nat) :
  (1 < n)%nat -> (0 < k)%nat ->
  depth_of n k - depth_of n (k - 1) = 20.12 / INR (n - 1).
Proof.
  intros Hn Hk. unfold depth_of, PITCH_LENGTH_METERS.
  replace (Nat.max (n - 1) 1) with (n - 1)%nat by lia.
  assert (0 < INR (n - 1)) by (apply lt_0_INR; lia).
  replace (INR k) with (INR (k - 1) + 1).
  - field. lra.
  - rewrite <- S_INR. f_equal. lia.
Qed.

(** Between two frames with the same raw lateral and vertical position the
    speed is the depth step over the elapsed time, in km/h, rounded. *)
Lemma speed_at_same_place (frames : list FrameSnapshot.t) frame (k : nat)
    this before :
  k <> 0%nat ->
  frames !! k = Some this -> frames !! (k - 1)%nat = Some before ->
  at0 (FrameSnapshot.ballPosition this) = at0 (FrameSnapshot.ballPosition before) ->
  at1 (FrameSnapshot.ballPosition this) = at1 (FrameSnapshot.ballPosition before) ->
  FrameSnapshot.time this - FrameSnapshot.time before <> 0 ->
  speed_at frames (positions_of frames) frame k =
    Some (Math_round
            ((depth_of (length frames) k - depth_of (length frames) (k - 1))
             / (FrameSnapshot.time this - FrameSnapshot.time before) * 3.6)).
Proof.
  intros Hk Hthis Hbefore Hx Hy Hdt. unfold speed_at.
  destruct (Nat.eqb_spec k 0) as [|_]; [contradiction|].
  rewrite (positions_of_lookup _ _ _ Hbefore). cbn [mbind option_bind].
  rewrite (positions_of_lookup _ _ _ Hthis). cbn [mbind option_bind].
  rewrite Hthis. cbn [mbind option_bind].
  rewrite Hbefore. cbn [mbind option_bind].
  unfold js_or. destruct (Req_dec_T _ 0) as [Hz|_]; [contradiction|].
  unfold at0, at1, at2 in *. cbn [fst snd].
  rewrite Hx, Hy.
  set (dz := depth_of (length frames) k - depth_of (length frames) (k - 1)).
  assert (Hdz : 0 <= dz).
  { unfold dz. pose proof (depth_of_mono (length frames) (k - 1) k ltac:(lia)). lra. }
  match goal with
  | |- context [sqrt ?e] => replace e with (dz * dz) by ring
  end.
  rewrite (sqrt_square dz Hdz). reflexivity.
Qed.

(** ** The release scan on a given array *)

Lemma reduce_from_cons {A B : Type} (f : B -> A -> nat -> B) (idx : nat)
    (value : A) (rest : list A) (acc : B) :
  reduce_from f idx (value :: rest) acc =
    reduce_from f (idx + 1)%nat rest (f acc value idx).
Proof. reflexivity. Qed.

Lemma release_step_keep (smoothedSpeeds : list R) (acc idx : nat) (speed best : R) :
  smoothedSpeeds !! acc = Some best -> ~ best < speed ->
  release_step smoothedSpeeds acc speed idx = acc.
Proof.
  intros Hbest Hle. unfold release_step. rewrite Hbest.
  destruct (Rlt_dec best speed); [contradiction|reflexivity].
Qed.

Lemma release_step_move (smoothedSpeeds : list R) (acc idx : nat) (speed best : R) :
  smoothedSpeeds !! acc = Some best -> best < speed ->
  release_step smoothedSpeeds acc speed idx = idx.
Proof.
  intros Hbest Hlt. unfold release_step. rewrite Hbest.
  destruct (Rlt_dec best speed); [reflexivity|contradiction].
Qed.

(** One iteration of the scan on an array given element by element; the
    comparison is settled by linear arithmetic. *)
Ltac scan_step :=
  rewrite reduce_from_cons;
  first
    [ erewrite release_step_keep; [|reflexivity|lra]
    | erewrite release_step_move; [|reflexivity|lra] ];
  cbn [Nat.add].

(** ** A delivery whose fastest frame comes before the search start *)

Lemma burst_speeds : speeds_of burst_frames = Some [0; 1811; 18; 18; 18].
Proof.
  assert (H1 : forall frame,
            speed_at burst_frames (positions_of burst_frames) frame 1 = Some 1811).
  { intros frame.
    erewrite speed_at_same_place;
      [|lia|reflexivity|reflexivity|reflexivity|reflexivity|simpl; lra].
    rewrite depth_step by (simpl; lia). f_equal.
    apply Math_round_eq. simpl. lra. }
  assert (Hk : forall frame k t, (2 <= k)%nat ->
            burst_frames !! k = Some (still_frame (t + 1)) ->
            burst_frames !! (k - 1)%nat = Some (still_frame t) ->
            speed_at burst_frames (positions_of burst_frames) frame k = Some 18).
  { intros frame k t Hk Hthis Hbefore.
    erewrite speed_at_same_place;
      [|lia|exact Hthis|exact Hbefore|reflexivity|reflexivity|simpl; lra].
    rewrite depth_step by (simpl; lia). f_equal.
    apply Math_round_eq. simpl.
    replace (t + 1 - t) with 1 by lra. lra. }
  unfold speeds_of. unfold burst_frames at 3. cbn [map_from Nat.add].
  rewrite H1.
  rewrite (Hk _ 2%nat 0.01), (Hk _ 3%nat 1.01), (Hk _ 4%nat 2.01);
    try lia; try reflexivity;
    unfold burst_frames; cbn [lookup list_lookup Nat.sub]; do 2 f_equal; lra.
Qed.

(** The smoothed speeds of a series of five values, written out. *)
Lemma smoothSeries_five (v0 v1 v2 v3 v4 factor : R) :
  smoothSeries [v0; v1; v2; v3; v4] factor =
    let s1 := v0 * (1 - factor) + v1 * factor in
    let s2 := s1 * (1 - factor) + v2 * factor in
    let s3 := s2 * (1 - factor) + v3 * factor in
    let s4 := s3 * (1 - factor) + v4 * factor in
    Some [v0; s1; s2; s3; s4].
Proof. reflexivity. Qed.

(** C10: the release scan visits every index from 0 and the search start
    [floor(N * 0.4)] is only its first running-maximum index: on
    [burst_frames] ([N = 5], search start 2) the smoothed speed of frame 1
    exceeds that of frame 2 and the release frame is 1. *)
Theorem release_before_search_start :
  exists result smoothedSpeeds atSeed early,
    enrichFrames burst_frames = Some result /\
    (speeds_of burst_frames ≫= fun speeds => smoothSeries speeds default_factor)
      = Some smoothedSpeeds /\
    floor_scaled (length burst_frames) 0.4 = 2%nat /\
    smoothedSpeeds !! 2%nat = Some atSeed /\
    smoothedSpeeds !! 1%nat = Some early /\
    atSeed < early /\
    KeyMoments.releaseFrame (AnalysisResult.keyMoments result) = 1%nat /\
    (KeyMoments.releaseFrame (AnalysisResult.keyMoments result)
       < floor_scaled (length burst_frames) 0.4)%nat.
Proof.
  destruct (enrichFrames_run burst_frames ltac:(discriminate))
    as (speeds & smoothed & seams & enriched & atImpact & H).
  cbv zeta in H. destruct H as (Hsp & _ & Hsm & _ & _ & _ & _ & _ & _ & Hrun).
  rewrite burst_speeds in Hsp. injection Hsp as <-.
  rewrite smoothSeries_five in Hsm. cbv zeta in Hsm. injection Hsm as <-.
  assert (Hseed : floor_scaled (length burst_frames) 0.4 = 2%nat).
  { rewrite (floor_scaled_div _ 2 5); [reflexivity|lia|simpl; lra]. }
  assert (Hrel : releaseFrame_of
            [0; 0 * (1 - default_factor) + 1811 * default_factor;
             (0 * (1 - default_factor) + 1811 * default_factor)
               * (1 - default_factor) + 18 * default_factor;
             ((0 * (1 - default_factor) + 1811 * default_factor)
                * (1 - default_factor) + 18 * default_factor)
               * (1 - default_factor) + 18 * default_factor;
             (((0 * (1 - default_factor) + 1811 * default_factor)
                 * (1 - default_factor) + 18 * default_factor)
                * (1 - default_factor) + 18 * default_factor)
               * (1 - default_factor) + 18 * default_factor] = 1%nat).
  { unfold releaseFrame_of.
    rewrite (floor_scaled_div _ 2 5); [|lia|simpl; lra].
    cbn [length Nat.mul Nat.add Nat.div Nat.divmod fst]. unfold default_factor.
    do 5 scan_step. reflexivity. }
  eexists _, _, _, _. split; [exact Hrun|].
  split; [rewrite burst_speeds; cbn [mbind option_bind]; apply smoothSeries_five|].
  cbv zeta. cbn [AnalysisResult.keyMoments KeyMoments.releaseFrame].
  rewrite Hrel, Hseed.
  split; [reflexivity|]. split; [reflexivity|]. split; [reflexivity|].
  split; [unfold default_factor; lra|]. split; [reflexivity|lia].
Qed.

(** ** Ten frames at one place *)





(** The frames of [uniform_frames]. *)
Lemma uniform_frames_lookup (i : nat) f :
  uniform_frames !! i = Some f ->
  (i < 10)%nat /\ f = still_frame (INR i / 10).
Proof.
  unfold uniform_frames. rewrite list_lookup_fmap.
  destruct (seq 0 10 !! i) as [k|] eqn:Hk; [|discriminate].
  apply lookup_seq in Hk. destruct Hk as [-> Hlt]. simpl.
  intros [= <-]. split; [exact Hlt|reflexivity].
Qed.




Lemma summary_defaults_witness :
  [still_frame 0] <> [] /\
  exists result snap,
    enrichFrames [still_frame 0] = Some result /\
    AnalysisResult.frames result
      !! KeyMoments.releaseFrame (AnalysisResult.keyMoments result) = Some snap /\
    Summary.releaseHeight (AnalysisResult.summary result)
      = FrameSnapshot.releaseHeight snap.
Proof.
  split; [discriminate|].
  destruct (summary_defaults [still_frame 0] ltac:(discriminate))
    as (result & speeds & smoothed & seams & atRelease & atRunup & angle &
        snap & atImpact & Hrun & _ & _ & _ & H).
  cbv zeta in H. destruct H as (_ & _ & _ & Hsnap & _ & _ & _ & _ & _ & _ & _ & Hrh & _).
  exists result, snap. repeat split; assumption.
Defined.

Lemma depth_assignment_witness :
  uniform_frames <> [] /\
  exists result p,
    enrichFrames uniform_frames = Some result /\
    AnalysisResult.trajectory result !! 9%nat = Some p /\ at2 p = 20.12.
Proof.
  split; [discriminate|].
  destruct (depth_assignment uniform_frames ltac:(discriminate))
    as (result & Hrun & H).
  cbv zeta in H. destruct H as (_ & _ & _ & Hlast).
  destruct (Hlast ltac:(simpl; lia)) as (p & Hp & Hz).
  exists result, p. repeat split; assumption.
Defined.


Lemma mapKeypointsToBallPosition_missing_witness :
  1280 <> 0 /\ 720 <> 0 /\ blank_keypoints <> [] /\
  mapKeypointsToBallPosition 1280 720 blank_keypoints = (0, 1.04, 0).
Proof.
  split; [lra|]. split; [lra|]. split; [discriminate|].
  destruct (mapKeypointsToBallPosition_missing 1280 720 blank_keypoints)
    as (wrist & lateral & vertical & Hwrist & Hpos & _ & _ & _ & Hx & Hy);
    [lra|lra|discriminate|].
  injection Hwrist as <-.
  rewrite Hpos, (Hx eq_refl), (Hy eq_refl). reflexivity.
Defined.

(** * Further properties of the smoother *)

(** A property of values that a weighted mean with weights
    [1 - factor] and [factor] keeps holds of every smoothed value once it
    holds of every input value. *)
Lemma smooth_loop_Forall (P : R -> Prop) (factor : R) (l output : list R)
    (idx : nat) :
  (forall a b, P a -> P b -> P (a * (1 - factor) + b * factor)) ->
  length output = idx -> Forall P output -> Forall P l ->
  exists out, forEach_from (smooth_step factor) idx l output = Some out /\
    Forall P out.
Proof.
  intros Hmean. revert output idx.
  induction l as [|v l IH]; intros output idx Hlen Hout Hl; cbn [forEach_from].
  - exists output. auto.
  - apply Forall_cons in Hl as [Hv Hl].
    destruct (Nat.eq_dec idx 0%nat) as [Hz|Hnz].
    + rewrite Hz. rewrite smooth_step_first. cbn [mbind option_bind].
      apply IH; [rewrite length_app; simpl; lia| |exact Hl].
      apply Forall_app. split; [exact Hout|]. repeat constructor. exact Hv.
    + destruct (lookup_lt_is_Some_2 output (idx - 1)%nat ltac:(lia)) as [prev Hprev].
      rewrite (smooth_step_next factor v prev output idx Hnz Hprev).
      cbn [mbind option_bind].
      apply IH; [rewrite length_app; simpl; lia| |exact Hl].
      apply Forall_app. split; [exact Hout|]. repeat constructor.
      apply Hmean; [|exact Hv].
      apply (Forall_lookup_1 P output (idx - 1)%nat prev Hout Hprev).
Qed.

Lemma forEach_from_app {A S : Type} (f : A -> nat -> S -> option S)
    (l1 l2 : list A) (idx : nat) (s : S) :
  forEach_from f idx (l1 ++ l2) s =
    forEach_from f idx l1 s ≫= forEach_from f (idx + length l1)%nat l2.
Proof.
  revert idx s. induction l1 as [|a l1 IH]; intros idx s; cbn [app forEach_from length].
  - rewrite Nat.add_0_r. reflexivity.
  - destruct (f a idx s) as [s'|]; cbn [mbind option_bind]; [|reflexivity].
    rewrite IH. do 2 f_equal. lia.
Qed.

(** X3: the smoother is causal: the first values of the smoothed series
    are the smoothed series of the first input values, whatever follows. *)
Theorem smoothSeries_prefix (series later : list R) (factor : R) :
  exists output,
    smoothSeries (series ++ later) factor = Some output /\
    smoothSeries series factor = Some (take (length series) output).
Proof.
  unfold smoothSeries. rewrite forEach_from_app.
  destruct (smooth_loop factor series [] 0%nat eq_refl) as (o1 & Hrun1 & Hl1 & _).
  rewrite Hrun1. cbn [mbind option_bind Nat.add].
  destruct (smooth_loop factor later o1 (length series) ltac:(simpl in Hl1; lia))
    as (out & Hrun2 & Hl2 & Hkeep & _).
  exists out. split; [exact Hrun2|]. f_equal.
  apply list_eq. intros i.
  destruct (Nat.lt_ge_cases i (length series)) as [Hi|Hi].
  - rewrite lookup_take_lt by lia. symmetry. apply Hkeep. exact Hi.
  - rewrite lookup_take_ge by lia. apply lookup_ge_None_2. simpl in Hl1. lia.
Qed.

(** * Further properties of the segmenter *)

(** Induction over a [reduce] that knows how many elements were visited. *)
Lemma reduce_from_ind_idx {A B : Type} (P : nat -> B -> Prop)
    (f : B -> A -> nat -> B) (l : list A) (idx : nat) (acc : B) :
  P idx acc ->
  (forall k acc' a, P (idx + k)%nat acc' -> l !! k = Some a ->
     P (idx + k + 1)%nat (f acc' a (idx + k)%nat)) ->
  P (idx + length l)%nat (reduce_from f idx l acc).
Proof.
  revert idx acc. induction l as [|a l IH]; intros idx acc Hacc Hstep;
    cbn [reduce_from length].
  - rewrite Nat.add_0_r. exact Hacc.
  - replace (idx + S (length l))%nat with (idx + 1 + length l)%nat by lia.
    apply IH.
    + pose proof (Hstep 0%nat acc a) as H0. rewrite !Nat.add_0_r in H0.
      apply H0; [exact Hacc|reflexivity].
    + intros k acc' a' Hacc' Hk.
      replace (idx + 1 + k)%nat with (idx + S k)%nat in * by lia.
      apply Hstep; assumption.
Qed.

(** The release scan ends on a greatest value of the array; it stays on
    the search start when that holds a greatest value, and otherwise ends
    on the first index that holds one. *)
Lemma releaseFrame_of_max (smoothedSpeeds : list R) :
  smoothedSpeeds <> [] ->
  exists best,
    smoothedSpeeds !! releaseFrame_of smoothedSpeeds = Some best /\
    (forall j v, smoothedSpeeds !! j = Some v -> v <= best) /\
    (releaseFrame_of smoothedSpeeds
       = floor_scaled (length smoothedSpeeds) 0.4 \/
     (forall v, smoothedSpeeds !! floor_scaled (length smoothedSpeeds) 0.4
        = Some v -> v < best) /\
     forall j v, (j < releaseFrame_of smoothedSpeeds)%nat ->
       smoothedSpeeds !! j = Some v -> v < best).
Proof.
  intros Hne.
  assert (Hn : (0 < length smoothedSpeeds)%nat)
    by (destruct smoothedSpeeds; [congruence|simpl; lia]).
  set (seed := floor_scaled (length smoothedSpeeds) 0.4).
  assert (Hseed : (seed < length smoothedSpeeds)%nat)
    by (apply floor_scaled_lt; [exact Hn|lra]).
  set (P := fun (k : nat) (acc : nat) =>
    exists best, smoothedSpeeds !! acc = Some best /\
      (forall j v, (j < k)%nat -> smoothedSpeeds !! j = Some v -> v <= best) /\
      (forall v, smoothedSpeeds !! seed = Some v -> v <= best) /\
      (acc = seed \/
       (acc < k)%nat /\
       (forall v, smoothedSpeeds !! seed = Some v -> v < best) /\
       forall j v, (j < acc)%nat -> smoothedSpeeds !! j = Some v -> v < best)).
  assert (Hfinal : P (0 + length smoothedSpeeds)%nat (releaseFrame_of smoothedSpeeds)).
  { unfold releaseFrame_of. fold seed. apply reduce_from_ind_idx.
    - destruct (lookup_lt_is_Some_2 smoothedSpeeds seed Hseed) as [b Hb].
      exists b. split; [exact Hb|]. split; [intros; lia|].
      split; [intros v Hv; rewrite Hb in Hv; injection Hv as <-; lra|].
      left. reflexivity.
    - intros k acc a (best & Hbest & Hle & Hsd & Hcase) Hk. cbn [Nat.add] in *.
      unfold release_step. rewrite Hbest.
      destruct (Rlt_dec best a) as [Hlt|Hge].
      + exists a. split; [exact Hk|]. split; [|split].
        * intros j v Hj Hv. destruct (Nat.eq_dec j k) as [->|Hjk].
          -- rewrite Hk in Hv. injection Hv as <-. lra.
          -- pose proof (Hle j v ltac:(lia) Hv). lra.
        * intros v Hv. pose proof (Hsd v Hv). lra.
        * right. split; [lia|]. split.
          -- intros v Hv. pose proof (Hsd v Hv). lra.
          -- intros j v Hj Hv. pose proof (Hle j v Hj Hv). lra.
      + exists best. split; [exact Hbest|]. split; [|split; [exact Hsd|]].
        * intros j v Hj Hv. destruct (Nat.eq_dec j k) as [->|Hjk].
          -- rewrite Hk in Hv. injection Hv as <-. lra.
          -- apply (Hle j v); [lia|exact Hv].
        * destruct Hcase as [->|(Hacc & Hs & Hfirst)]; [left; reflexivity|].
          right. split; [lia|]. split; assumption. }
  destruct Hfinal as (best & Hbest & Hle & _ & Hcase). cbn [Nat.add] in Hle.
  exists best. split; [exact Hbest|]. split.
  - intros j v Hv. apply (Hle j v); [|exact Hv]. apply lookup_lt_Some in Hv. exact Hv.
  - fold seed. destruct Hcase as [->|(_ & Hs & Hfirst)]; [left; reflexivity|].
    right. split; assumption.
Qed.

(** Every frame of the result of a run on a non-empty input, field by
    field. *)
Lemma enrichFrames_frames (frames : list FrameSnapshot.t) :
  frames <> [] ->
  exists result speeds smoothedSpeeds seamAngles,
    enrichFrames frames = Some result /\
    speeds_of frames = Some speeds /\
    smoothSeries speeds default_factor = Some smoothedSpeeds /\
    smoothSeries (map FrameSnapshot.seamAngle frames) SEAM_SMOOTHING
      = Some seamAngles /\
    length speeds = length frames /\
    length smoothedSpeeds = length frames /\
    let releaseFrame := releaseFrame_of smoothedSpeeds in
    let pitchFrame := pitchFrame_of (length frames) releaseFrame in
    let impactFrame := impactFrame_of (length frames) pitchFrame in
    AnalysisResult.keyMoments result
      = KeyMoments.mk releaseFrame pitchFrame impactFrame /\
    AnalysisResult.trajectory result = positions_of frames /\
    length (AnalysisResult.frames result) = length frames /\
    forall k input, frames !! k = Some input ->
      exists speed angle,
        smoothedSpeeds !! k = Some speed /\
        seamAngles !! k = Some angle /\
        AnalysisResult.frames result !! k =
          Some (FrameSnapshot.mk (FrameSnapshot.time input)
                  (phase_of releaseFrame pitchFrame impactFrame k)
                  (at0 (FrameSnapshot.ballPosition input),
                   at1 (FrameSnapshot.ballPosition input),
                   depth_of (length frames) k)
                  angle speed
                  (at1 (FrameSnapshot.ballPosition input))
                  (FrameSnapshot.keypoints input)).
Proof.
  intros Hne.
  destruct (enrichFrames_run frames Hne)
    as (speeds & smoothed & seams & enriched & atImpact & H).
  cbv zeta in H.
  destruct H as (Hsp & Hls & Hsm & Hlsm & Hse & Hlse & Hen & Hlen & Hat & Hrun).
  eexists _, speeds, smoothed, seams. split; [exact Hrun|].
  cbn [AnalysisResult.keyMoments AnalysisResult.trajectory AnalysisResult.frames].
  repeat (split; [first [assumption | reflexivity | lia]|]).
  intros k input Hk.
  destruct (map_from_inv _ _ _ _ Hen) as [_ Hlook].
  destruct (Hlook k input Hk) as (snap & Hsnap & Hat'). cbn [Nat.add] in Hat'.
  pose proof (lookup_lt_Some _ _ _ Hk) as Hlt.
  destruct (enrich_at_Some frames
              (phases_of frames (releaseFrame_of smoothed)
                 (pitchFrame_of (length frames) (releaseFrame_of smoothed))
                 (impactFrame_of (length frames)
                    (pitchFrame_of (length frames) (releaseFrame_of smoothed))))
              (positions_of frames) seams smoothed input k)
    as (ph & pos & angle & speed & this & Hph & Hpos & Hangle & Hspeed & Hthis & Heq);
    try lia; eauto using positions_of_length.
  { unfold phases_of. apply length_imap. }
  exists speed, angle. split; [exact Hspeed|]. split; [exact Hangle|].
  rewrite Hsnap, <- Hat', Heq. do 2 f_equal.
  - unfold phases_of in Hph. rewrite list_lookup_imap, Hk in Hph.
    injection Hph as <-. reflexivity.
  - rewrite (positions_of_lookup _ _ _ Hk) in Hpos. injection Hpos as <-. reflexivity.
  - rewrite Hk in Hthis. injection Hthis as <-. reflexivity.
Qed.

(** X4: on a non-empty input the release frame carries the greatest
    smoothed speed of all frames of the result. *)
Theorem release_is_peak (frames : list FrameSnapshot.t) :
  frames <> [] ->
  exists result snap,
    enrichFrames frames = Some result /\
    AnalysisResult.frames result
      !! KeyMoments.releaseFrame (AnalysisResult.keyMoments result) = Some snap /\
    forall k f, AnalysisResult.frames result !! k = Some f ->
      FrameSnapshot.speedKph f <= FrameSnapshot.speedKph snap.
Proof.
  intros Hne.
  destruct (enrichFrames_frames frames Hne)
    as (result & speeds & smoothed & seams & Hrun & _ & _ & _ & _ & Hlsm & H).
  cbv zeta in H. destruct H as (Hkm & _ & Hlen & Hframe).
  destruct (releaseFrame_of_max smoothed) as (best & Hbest & Hmax & _).
  { intros ->. destruct frames; [congruence|discriminate]. }
  pose proof (lookup_lt_Some _ _ _ Hbest) as Hrel.
  destruct (lookup_lt_is_Some_2 frames (releaseFrame_of smoothed) ltac:(lia))
    as [input Hinput].
  destruct (Hframe _ _ Hinput) as (speed & angle & Hspeed & _ & Hsnap).
  rewrite Hbest in Hspeed. injection Hspeed as <-.
  eexists result, _. split; [exact Hrun|].
  rewrite Hkm. cbn [KeyMoments.releaseFrame]. split; [exact Hsnap|].
  intros k f Hf. cbn [FrameSnapshot.speedKph].
  destruct (lookup_lt_is_Some_2 frames k) as [inputk Hinputk].
  { apply lookup_lt_Some in Hf. lia. }
  destruct (Hframe _ _ Hinputk) as (speedk & anglek & Hspeedk & _ & Hsnapk).
  rewrite Hsnapk in Hf. injection Hf as <-. cbn [FrameSnapshot.speedKph].
  apply (Hmax k). exact Hspeedk.
Qed.

(** X5: the release frame is the search start [floor(N * 0.4)] when no
    frame is strictly faster than that one; otherwise it is the first
    frame with the greatest smoothed speed: every earlier frame, and the
    search start, is strictly slower. *)
Theorem release_tie_break (frames : list FrameSnapshot.t) :
  frames <> [] ->
  exists result snap,
    enrichFrames frames = Some result /\
    let releaseFrame := KeyMoments.releaseFrame (AnalysisResult.keyMoments result) in
    let start := floor_scaled (length frames) 0.4 in
    AnalysisResult.frames result !! releaseFrame = Some snap /\
    (releaseFrame = start \/
     (forall f, AnalysisResult.frames result !! start = Some f ->
        FrameSnapshot.speedKph f < FrameSnapshot.speedKph snap) /\
     forall j f, (j < releaseFrame)%nat ->
       AnalysisResult.frames result !! j = Some f ->
       FrameSnapshot.speedKph f < FrameSnapshot.speedKph snap).
Proof.
  intros Hne.
  destruct (enrichFrames_frames frames Hne)
    as (result & speeds & smoothed & seams & Hrun & _ & _ & _ & _ & Hlsm & H).
  cbv zeta in H. destruct H as (Hkm & _ & Hlen & Hframe).
  destruct (releaseFrame_of_max smoothed) as (best & Hbest & _ & Hcase).
  { intros ->. destruct frames; [congruence|discriminate]. }
  pose proof (lookup_lt_Some _ _ _ Hbest) as Hrel.
  destruct (lookup_lt_is_Some_2 frames (releaseFrame_of smoothed) ltac:(lia))
    as [input Hinput].
  destruct (Hframe _ _ Hinput) as (speed & angle & Hspeed & _ & Hsnap).
  rewrite Hbest in Hspeed. injection Hspeed as <-.
  eexists result, _. split; [exact Hrun|]. cbv zeta.
  rewrite Hkm. cbn [KeyMoments.releaseFrame]. split; [exact Hsnap|].
  rewrite Hlsm in Hcase.
  destruct Hcase as [Heq|[Hstart Hfirst]]; [left; exact Heq|right].
  assert (Hspeed_of : forall k f, AnalysisResult.frames result !! k = Some f ->
            smoothed !! k = Some (FrameSnapshot.speedKph f)).
  { intros k f Hf.
    destruct (lookup_lt_is_Some_2 frames k) as [inputk Hinputk].
    { apply lookup_lt_Some in Hf. lia. }
    destruct (Hframe _ _ Hinputk) as (speedk & anglek & Hspeedk & _ & Hsnapk).
    rewrite Hsnapk in Hf. injection Hf as <-. exact Hspeedk. }
  cbn [FrameSnapshot.speedKph]. split.
  - intros f Hf. apply Hstart. apply Hspeed_of. exact Hf.
  - intros j f Hj Hf. apply (Hfirst j); [exact Hj|]. apply Hspeed_of. exact Hf.
Qed.

(** The first test of [phase_of] compares integers. *)
Lemma half_release_lt (idx releaseFrame : nat) :
  INR idx < INR releaseFrame * 0.5 <-> (2 * idx < releaseFrame)%nat.
Proof.
  split.
  - intros H. apply INR_lt. rewrite mult_INR. simpl. lra.
  - intros H. apply lt_INR in H. rewrite mult_INR in H. simpl in H. lra.
Qed.

Lemma phase_of_spec (releaseFrame pitchFrame impactFrame idx : nat) :
  phase_of releaseFrame pitchFrame impactFrame idx =
    if (2 * idx <? releaseFrame)%nat then RunUp
    else if (idx <? releaseFrame)%nat then LoadUp
    else if (idx =? releaseFrame)%nat then Release
    else if (idx <=? pitchFrame)%nat then Pitch
    else if (idx <=? impactFrame)%nat then Impact
    else FollowThrough.
Proof.
  unfold phase_of.
  destruct (Rlt_dec (INR idx) (INR releaseFrame * 0.5)) as [H|H];
    destruct (Nat.ltb_spec (2 * idx) releaseFrame) as [H'|H'];
    try reflexivity; exfalso.
  - apply half_release_lt in H. lia.
  - apply H. apply half_release_lt. exact H'.
Qed.

(** X6: the labels follow the key moments: exactly the release frame is
    labelled Release, the frames before it Run-Up or Load-Up, the frames up
    to the pitch frame Pitch, up to the impact frame Impact, the rest
    Follow-Through; along the frames the labels never step back in the
    order of [FramePhase]. *)
Theorem phases_follow_key_moments (frames : list FrameSnapshot.t) :
  frames <> [] ->
  exists result,
    enrichFrames frames = Some result /\
    let km := AnalysisResult.keyMoments result in
    (forall k f, AnalysisResult.frames result !! k = Some f ->
       (FrameSnapshot.phase f = Release <-> k = KeyMoments.releaseFrame km) /\
       ((k < KeyMoments.releaseFrame km)%nat ->
          FrameSnapshot.phase f = RunUp \/ FrameSnapshot.phase f = LoadUp) /\
       ((KeyMoments.releaseFrame km < k <= KeyMoments.pitchFrame km)%nat ->
          FrameSnapshot.phase f = Pitch) /\
       ((KeyMoments.pitchFrame km < k <= KeyMoments.impactFrame km)%nat ->
          FrameSnapshot.phase f = Impact) /\
       ((KeyMoments.impactFrame km < k)%nat ->
          FrameSnapshot.phase f = FollowThrough)) /\
    (forall i j fi fj, (i <= j)%nat ->
       AnalysisResult.frames result !! i = Some fi ->
       AnalysisResult.frames result !! j = Some fj ->
       (phase_rank (FrameSnapshot.phase fi)
          <= phase_rank (FrameSnapshot.phase fj))%nat).
Proof.
  intros Hne.
  destruct (enrichFrames_frames frames Hne)
    as (result & speeds & smoothed & seams & Hrun & _ & _ & _ & Hls & Hlsm & H).
  cbv zeta in H. destruct H as (Hkm & _ & Hlen & Hframe).
  set (r := releaseFrame_of smoothed) in *.
  set (p := pitchFrame_of (length frames) r) in *.
  set (i := impactFrame_of (length frames) p) in *.
  assert (Hr : (r < length frames)%nat).
  { pose proof (releaseFrame_of_lt smoothed
                  ltac:(destruct frames; [congruence|simpl in *; lia])).
    unfold r. lia. }
  pose proof (pitchFrame_of_bounds (length frames) r Hr) as Hp. fold p in Hp.
  pose proof (impactFrame_of_bounds (length frames) p ltac:(lia)) as Hi. fold i in Hi.
  assert (Hphase : forall k f, AnalysisResult.frames result !! k = Some f ->
            FrameSnapshot.phase f = phase_of r p i k).
  { intros k f Hf.
    destruct (lookup_lt_is_Some_2 frames k) as [inputk Hinputk].
    { apply lookup_lt_Some in Hf. lia. }
    destruct (Hframe _ _ Hinputk) as (speedk & anglek & _ & _ & Hsnapk).
    rewrite Hsnapk in Hf. injection Hf as <-. reflexivity. }
  exists result. split; [exact Hrun|]. cbv zeta.
  rewrite Hkm. cbn [KeyMoments.releaseFrame KeyMoments.pitchFrame KeyMoments.impactFrame].
  split.
  - intros k f Hf. rewrite (Hphase k f Hf), phase_of_spec.
    destruct (Nat.ltb_spec (2 * k) r), (Nat.ltb_spec k r), (Nat.eqb_spec k r),
      (Nat.leb_spec k p), (Nat.leb_spec k i);
      repeat split; intros; try lia; try discriminate; auto.
  - intros a b fa fb Hab Hfa Hfb.
    rewrite (Hphase a fa Hfa), (Hphase b fb Hfb), !phase_of_spec.
    destruct (Nat.ltb_spec (2 * a) r), (Nat.ltb_spec a r), (Nat.eqb_spec a r),
      (Nat.leb_spec a p), (Nat.leb_spec a i),
      (Nat.ltb_spec (2 * b) r), (Nat.ltb_spec b r), (Nat.eqb_spec b r),
      (Nat.leb_spec b p), (Nat.leb_spec b i); simpl; lia.
Qed.

(** X7: the result has one snapshot per input frame, in the same order:
    snapshot [k] keeps the time and the keypoints of input frame [k], its
    ball position is trajectory point [k], with the lateral and vertical
    coordinates of the input, and its release height is the raw vertical
    coordinate of the input. *)
Theorem enriched_frame_fields (frames : list FrameSnapshot.t) :
  frames <> [] ->
  exists result,
    enrichFrames frames = Some result /\
    length (AnalysisResult.frames result) = length frames /\
    forall k input, frames !! k = Some input ->
      exists snap,
        AnalysisResult.frames result !! k = Some snap /\
        FrameSnapshot.time snap = FrameSnapshot.time input /\
        FrameSnapshot.keypoints snap = FrameSnapshot.keypoints input /\
        AnalysisResult.trajectory result !! k
          = Some (FrameSnapshot.ballPosition snap) /\
        at0 (FrameSnapshot.ballPosition snap)
          = at0 (FrameSnapshot.ballPosition input) /\
        at1 (FrameSnapshot.ballPosition snap)
          = at1 (FrameSnapshot.ballPosition input) /\
        FrameSnapshot.releaseHeight snap
          = at1 (FrameSnapshot.ballPosition input).
Proof.
  intros Hne.
  destruct (enrichFrames_frames frames Hne)
    as (result & speeds & smoothed & seams & Hrun & _ & _ & _ & _ & _ & H).
  cbv zeta in H. destruct H as (_ & Htraj & Hlen & Hframe).
  exists result. split; [exact Hrun|]. split; [exact Hlen|].
  intros k input Hk.
  destruct (Hframe _ _ Hk) as (speed & angle & _ & _ & Hsnap).
  eexists. split; [exact Hsnap|].
  cbn [FrameSnapshot.time FrameSnapshot.keypoints FrameSnapshot.ballPosition
       FrameSnapshot.releaseHeight].
  rewrite Htraj, (positions_of_lookup _ _ _ Hk).
  repeat split; reflexivity.
Qed.

(** X8: the predicted impact distance is the pitch length minus the depth
    of the impact frame; it lies between 0 and 20.12 m, and with more than
    one frame it is 0 exactly when the impact frame is the last frame. *)
Theorem predictedImpact_range (frames : list FrameSnapshot.t) :
  frames <> [] ->
  exists result,
    enrichFrames frames = Some result /\
    let impactFrame := KeyMoments.impactFrame (AnalysisResult.keyMoments result) in
    let predicted :=
      Summary.predictedImpactMeters (AnalysisResult.summary result) in
    predicted =
      20.12 - INR impactFrame / INR (Nat.max (length frames - 1) 1) * 20.12 /\
    0 <= predicted <= 20.12 /\
    ((1 < length frames)%nat ->
       (predicted = 0 <-> impactFrame = (length frames - 1)%nat)).
Proof.
  intros Hne.
  destruct (enrichFrames_run frames Hne)
    as (speeds & smoothed & seams & enriched & atImpact & H).
  cbv zeta in H.
  destruct H as (_ & Hls & _ & Hlsm & _ & _ & _ & _ & Hat & Hrun).
  eexists. split; [exact Hrun|].
  cbn [AnalysisResult.keyMoments AnalysisResult.summary KeyMoments.impactFrame
       Summary.predictedImpactMeters].
  set (r := releaseFrame_of smoothed) in *.
  set (p := pitchFrame_of (length frames) r) in *.
  set (i := impactFrame_of (length frames) p) in *.
  assert (Hn : (0 < length frames)%nat) by (destruct frames; [congruence|simpl; lia]).
  assert (Hr : (r < length frames)%nat).
  { pose proof (releaseFrame_of_lt smoothed ltac:(lia)). unfold r. lia. }
  pose proof (pitchFrame_of_bounds (length frames) r Hr) as Hp. fold p in Hp.
  pose proof (impactFrame_of_bounds (length frames) p ltac:(lia)) as Hi. fold i in Hi.
  destruct (lookup_lt_is_Some_2 frames i ltac:(lia)) as [input Hinput].
  rewrite (positions_of_lookup _ _ _ Hinput) in Hat. injection Hat as <-.
  unfold at2. cbn [snd]. unfold Math_max, PITCH_LENGTH_METERS.
  pose proof (depth_of_mono (length frames) 0 i ltac:(lia)) as Hlo.
  rewrite depth_of_first in Hlo.
  pose proof (depth_of_mono (length frames) i (length frames - 1)%nat ltac:(lia)) as Hhi.
  assert (Hlast : depth_of (length frames) (length frames - 1)%nat <= 20.12).
  { destruct (Nat.eq_dec (length frames) 1%nat) as [H1|H1].
    - rewrite H1. simpl. rewrite depth_of_first. lra.
    - rewrite depth_of_last by lia. lra. }
  rewrite Rmax_right by lra.
  split; [reflexivity|]. split; [unfold depth_of, PITCH_LENGTH_METERS in *; lra|].
  intros HN. split.
  - intros Hzero. destruct (Nat.eq_dec i (length frames - 1)%nat) as [|Hneq]; [assumption|].
    exfalso.
    pose proof (depth_step (length frames) (length frames - 1)%nat HN ltac:(lia)) as Hstep.
    pose proof (depth_of_mono (length frames) i (length frames - 1 - 1)%nat ltac:(lia)) as Hm.
    rewrite depth_of_last in Hstep by lia.
    assert (0 < 20.12 / INR (length frames - 1)).
    { apply Rdiv_lt_0_compat; [lra|]. apply lt_0_INR. lia. }
    unfold depth_of, PITCH_LENGTH_METERS in *. lra.
  - intros ->. pose proof (depth_of_last (length frames) HN) as Hl.
    unfold depth_of, PITCH_LENGTH_METERS in *. lra.
Qed.

(** With timestamps that never step back the elapsed time the speed is
    divided by is positive (0.016 s when the two timestamps are equal), so
    no instantaneous speed is negative. *)
Lemma speeds_of_nonneg (frames : list FrameSnapshot.t) speeds :
  (forall i a b, frames !! i = Some a -> frames !! (i + 1)%nat = Some b ->
     FrameSnapshot.time a <= FrameSnapshot.time b) ->
  speeds_of frames = Some speeds -> Forall (fun v => 0 <= v) speeds.
Proof.
  intros Htime Hsp. unfold speeds_of in Hsp.
  destruct (map_from_inv _ _ _ _ Hsp) as [Hlen Hlook].
  apply Forall_lookup_2. intros k v Hv.
  destruct (lookup_lt_is_Some_2 frames k) as [input Hinput].
  { apply lookup_lt_Some in Hv. lia. }
  destruct (Hlook k input Hinput) as (b & Hb & Hat). cbn [Nat.add] in Hat.
  rewrite Hv in Hb. injection Hb as <-.
  unfold speed_at in Hat. destruct (Nat.eqb_spec k 0) as [Hz|Hnz].
  { injection Hat as <-. lra. }
  destruct (positions_of frames !! (k - 1)%nat) as [prev|]; [|discriminate].
  destruct (positions_of frames !! k) as [curr|]; [|discriminate].
  rewrite Hinput in Hat. cbn [mbind option_bind] in Hat.
  destruct (frames !! (k - 1)%nat) as [before|] eqn:Hbefore; [|discriminate].
  cbn [mbind option_bind] in Hat. injection Hat as <-.
  change 0 with (IZR 0). apply Math_round_ge.
  pose proof (Htime (k - 1)%nat before input Hbefore) as Hle.
  replace (k - 1 + 1)%nat with k in Hle by lia. specialize (Hle Hinput).
  match goal with
  | |- _ <= sqrt ?e / ?dt * 3.6 =>
      pose proof (sqrt_pos e) as Hs; assert (Hdt : 0 < dt)
  end.
  { unfold js_or. destruct (Req_dec_T _ 0); lra. }
  assert (0 <= sqrt
            ((at0 curr - at0 prev) * (at0 curr - at0 prev) +
             (at1 curr - at1 prev) * (at1 curr - at1 prev) +
             (at2 curr - at2 prev) * (at2 curr - at2 prev))
            / js_or (FrameSnapshot.time input - FrameSnapshot.time before) 0.016).
  { unfold Rdiv. apply Rmult_le_pos; [exact Hs|].
    left. apply Rinv_0_lt_compat. exact Hdt. }
  lra.
Qed.

Lemma pace_positive_run (frames : list FrameSnapshot.t) :
  frames <> [] ->
  (forall i a b, frames !! i = Some a -> frames !! (i + 1)%nat = Some b ->
     FrameSnapshot.time a <= FrameSnapshot.time b) ->
  exists result,
    enrichFrames frames = Some result /\
    (forall k f, AnalysisResult.frames result !! k = Some f ->
       0 <= FrameSnapshot.speedKph f) /\
    0 < Summary.releaseSpeedKph (AnalysisResult.summary result) /\
    0 < Summary.runupVelocityKph (AnalysisResult.summary result).
Proof.
  intros Hne Htime.
  destruct (summary_of_run frames Hne)
    as (result & speeds & smoothed & seams & atRelease & atRunup & angle &
        snap & input & atImpact & Hrun & Hsp & Hsm & Hse & H).
  cbv zeta in H.
  destruct H as (_ & HatR & HatU & _ & _ & _ & _ & _ & Hrs & Hru & _).
  pose proof (speeds_of_nonneg frames speeds Htime Hsp) as Hnonneg.
  assert (Hsmooth : Forall (fun v => 0 <= v) smoothed).
  { destruct (smooth_loop_Forall (fun v => 0 <= v) default_factor speeds [] 0%nat)
      as (out & Hout & Hall).
    - intros a b Ha Hb. unfold default_factor. nra.
    - reflexivity.
    - constructor.
    - exact Hnonneg.
    - unfold smoothSeries in Hsm. rewrite Hsm in Hout. injection Hout as <-.
      exact Hall. }
  exists result. split; [exact Hrun|]. split; [|split].
  - destruct (enrichFrames_frames frames Hne)
      as (result' & speeds' & smoothed' & seams' & Hrun' & Hsp' & Hsm' & _ & _ & _ & H').
    cbv zeta in H'. destruct H' as (_ & _ & Hlen & Hframe).
    rewrite Hrun in Hrun'. injection Hrun' as <-.
    rewrite Hsp in Hsp'. injection Hsp' as <-.
    rewrite Hsm in Hsm'. injection Hsm' as <-.
    intros k f Hf.
    destruct (lookup_lt_is_Some_2 frames k) as [inputk Hinputk].
    { apply lookup_lt_Some in Hf. lia. }
    destruct (Hframe _ _ Hinputk) as (speedk & anglek & Hspeedk & _ & Hsnapk).
    rewrite Hsnapk in Hf. injection Hf as <-. cbn [FrameSnapshot.speedKph].
    apply (Forall_lookup_1 _ _ _ _ Hsmooth Hspeedk).
  - rewrite Hrs. pose proof (Forall_lookup_1 _ _ _ _ Hsmooth HatR).
    destruct (Req_dec_T atRelease 0); lra.
  - rewrite Hru. pose proof (Forall_lookup_1 _ _ _ _ Hsmooth HatU).
    destruct (Req_dec_T atRunup 0); lra.
Qed.

(** X9: when the timestamps of a non-empty input never step back, no
    frame of the result has a negative speed, and the release pace and the
    run-up velocity of the summary are strictly positive (a computed 0 is
    replaced by the default). *)
Theorem pace_is_positive (frames : list FrameSnapshot.t) :
  frames <> [] ->
  (forall i a b, frames !! i = Some a -> frames !! (i + 1)%nat = Some b ->
     FrameSnapshot.time a <= FrameSnapshot.time b) ->
  exists result,
    enrichFrames frames = Some result /\
    (forall k f, AnalysisResult.frames result !! k = Some f ->
       0 <= FrameSnapshot.speedKph f) /\
    0 < Summary.releaseSpeedKph (AnalysisResult.summary result) /\
    0 < Summary.runupVelocityKph (AnalysisResult.summary result).
Proof. exact (pace_positive_run frames). Qed.

(** * Further properties of the kinematic mapper *)

Lemma js_or_nonzero (a b : R) : a <> 0 -> js_or a b = a.
Proof.
  intros Ha. unfold js_or. destruct (Req_dec_T a 0); [contradiction|reflexivity].
Qed.

Lemma js_or_zero (b : R) : js_or 0 b = b.
Proof.
  unfold js_or. destruct (Req_dec_T 0 0); [reflexivity|contradiction].
Qed.

(** X10: when the coordinates of the selected keypoint that are present
    lie inside the frame, the mapped position has a lateral coordinate
    between -1.8 and 1.8 m, a vertical coordinate between 0.4 and 2.6 m and
    depth 0; so has the position given for an empty keypoint set. *)
Theorem mapper_range (width height : R) (keypoints : list Keypoint.t) :
  0 < width -> 0 < height ->
  (forall wrist, mapper_wrist keypoints = Some wrist ->
     (forall wx, Keypoint.x wrist = Some wx -> 0 <= wx <= width) /\
     (forall wy, Keypoint.y wrist = Some wy -> 0 <= wy <= height)) ->
  exists lateral vertical,
    mapKeypointsToBallPosition width height keypoints = (lateral, vertical, 0) /\
    -1.8 <= lateral <= 1.8 /\ 0.4 <= vertical <= 2.6.
Proof.
  intros Hw Hh Hin. unfold mapKeypointsToBallPosition.
  destruct (mapper_wrist keypoints) as [wrist|]; [|exists 0, 1.2; repeat split; lra].
  destruct (Hin wrist eq_refl) as [Hx Hy].
  eexists _, _. split; [reflexivity|].
  assert (Hnx : 0 <= nullish (Keypoint.x wrist) (width / 2) / width <= 1).
  { destruct (Keypoint.x wrist) as [wx|]; cbn [nullish].
    - specialize (Hx wx eq_refl). split.
      + apply Rmult_le_pos; [lra|]. left. apply Rinv_0_lt_compat. exact Hw.
      + apply (Rmult_le_reg_r width); [exact Hw|].
        unfold Rdiv. rewrite Rmult_assoc, Rinv_l by lra. lra.
    - replace (width / 2 / width) with (/ 2) by (field; lra). lra. }
  assert (Hny : 0 <= nullish (Keypoint.y wrist) (height * 0.6) / height <= 1).
  { destruct (Keypoint.y wrist) as [wy|]; cbn [nullish].
    - specialize (Hy wy eq_refl). split.
      + apply Rmult_le_pos; [lra|]. left. apply Rinv_0_lt_compat. exact Hh.
      + apply (Rmult_le_reg_r height); [exact Hh|].
        unfold Rdiv. rewrite Rmult_assoc, Rinv_l by lra. lra.
    - replace (height * 0.6 / height) with 0.6 by (decimals; field; lra). lra. }
  unfold Math_max. split; [lra|]. split; [apply Rmax_l|].
  apply Rmax_lub; lra.
Qed.

(** X11: the mapper reads one keypoint only: the first one named
    [right_wrist]; without any, the first one named [left_wrist]; without
    any of either, the first keypoint of the set; the position is the one
    that keypoint alone would give.  An empty set gives (0, 1.2, 0). *)
Theorem mapper_selection (width height : R) (keypoints : list Keypoint.t) :
  (forall before kp after, keypoints = before ++ kp :: after ->
     Keypoint.name kp = Some "right_wrist" ->
     (forall q, q ∈ before -> Keypoint.name q <> Some "right_wrist") ->
     mapper_wrist keypoints = Some kp) /\
  (forall before kp after, keypoints = before ++ kp :: after ->
     Keypoint.name kp = Some "left_wrist" ->
     (forall q, q ∈ keypoints -> Keypoint.name q <> Some "right_wrist") ->
     (forall q, q ∈ before -> Keypoint.name q <> Some "left_wrist") ->
     mapper_wrist keypoints = Some kp) /\
  ((forall q, q ∈ keypoints ->
      Keypoint.name q <> Some "right_wrist" /\
      Keypoint.name q <> Some "left_wrist") ->
   mapper_wrist keypoints = keypoints !! 0%nat) /\
  (forall kp, mapper_wrist keypoints = Some kp ->
     mapKeypointsToBallPosition width height keypoints
       = mapKeypointsToBallPosition width height [kp]) /\
  (keypoints = [] ->
     mapKeypointsToBallPosition width height keypoints = (0, 1.2, 0)).
Proof.
  split; [|split; [|split; [|split]]].
  - intros before kp after -> Hname Hbefore. unfold mapper_wrist.
    rewrite (find_named_first _ _ _ _ Hname Hbefore). reflexivity.
  - intros before kp after Heq Hname Hright Hbefore. unfold mapper_wrist.
    replace (find_named "right_wrist" keypoints) with (@None Keypoint.t)
      by (symmetry; apply find_named_None; exact Hright).
    rewrite Heq, (find_named_first _ _ _ _ Hname Hbefore). reflexivity.
  - intros Hnone. unfold mapper_wrist.
    replace (find_named "right_wrist" keypoints) with (@None Keypoint.t)
      by (symmetry; apply find_named_None; intros q Hq; apply (Hnone q Hq)).
    replace (find_named "left_wrist" keypoints) with (@None Keypoint.t)
      by (symmetry; apply find_named_None; intros q Hq; apply (Hnone q Hq)).
    reflexivity.
  - intros kp Hkp. unfold mapKeypointsToBallPosition. rewrite Hkp.
    assert (Hone : mapper_wrist [kp] = Some kp).
    { unfold mapper_wrist, find_named. simpl.
      destruct (bool_decide _); [reflexivity|]. simpl.
      destruct (bool_decide _); reflexivity. }
    rewrite Hone. reflexivity.
  - intros ->. reflexivity.
Qed.

(** * The nearest-frame scan of [onTimeUpdate] *)

(** Induction over a [reduce] whose callback may fail: when the callback
    succeeds and keeps the invariant on every element, the [reduce]
    succeeds and ends in the invariant. *)
Lemma reduceM_from_ind_idx {A B : Type} (P : nat -> B -> Prop)
    (f : B -> A -> nat -> option B) (l : list A) (idx : nat) (acc : B) :
  P idx acc ->
  (forall k acc' a, P (idx + k)%nat acc' -> l !! k = Some a ->
     exists acc'', f acc' a (idx + k)%nat = Some acc'' /\
       P (idx + k + 1)%nat acc'') ->
  exists r, reduceM_from f idx l acc = Some r /\ P (idx + length l)%nat r.
Proof.
  revert idx acc. induction l as [|a l IH]; intros idx acc Hacc Hstep;
    cbn [reduceM_from length].
  - exists acc. rewrite Nat.add_0_r. auto.
  - destruct (Hstep 0%nat acc a) as (acc1 & Hf & Hacc1);
      [rewrite Nat.add_0_r; exact Hacc|reflexivity|].
    rewrite !Nat.add_0_r in *. rewrite Hf. cbn [mbind option_bind].
    replace (idx + S (length l))%nat with (idx + 1 + length l)%nat by lia.
    apply IH; [exact Hacc1|].
    intros k acc' a' Hacc' Hk.
    replace (idx + 1 + k)%nat with (idx + S k)%nat in * by lia.
    apply Hstep; assumption.
Qed.

(** What the handler does on a non-empty [framesRef]. *)
Lemma onTimeUpdate_run (ready : bool) (video : Video.t)
    (framesRef : list FrameSnapshot.t) (currentTime : R) :
  framesRef <> [] ->
  exists nearestIdx nearest,
    onTimeUpdate ready video framesRef currentTime
      = Some (Some (drawOverlay ready video (Some nearest), nearestIdx)) /\
    framesRef !! nearestIdx = Some nearest /\
    (forall j f, framesRef !! j = Some f ->
       Rabs (FrameSnapshot.time nearest - currentTime)
         <= Rabs (FrameSnapshot.time f - currentTime)) /\
    (forall j f, (j < nearestIdx)%nat -> framesRef !! j = Some f ->
       Rabs (FrameSnapshot.time nearest - currentTime)
         < Rabs (FrameSnapshot.time f - currentTime)).
Proof.
  intros Hne.
  set (dist := fun f => Rabs (FrameSnapshot.time f - currentTime)).
  set (P := fun (k acc : nat) =>
    exists best, framesRef !! acc = Some best /\
      (forall j f, (j < k)%nat -> framesRef !! j = Some f -> dist best <= dist f) /\
      (forall j f, (j < acc)%nat -> framesRef !! j = Some f -> dist best < dist f)).
  destruct (reduceM_from_ind_idx P (nearest_step framesRef currentTime)
              framesRef 0%nat 0%nat) as (r & Hr & best & Hbest & Hmin & Hfirst).
  - destruct framesRef as [|f0 rest]; [congruence|].
    exists f0. split; [reflexivity|]. split; intros; lia.
  - intros k acc a (best & Hbest & Hmin & Hfirst) Hk. cbn [Nat.add] in *.
    unfold nearest_step. rewrite Hbest. cbn [mbind option_bind].
    eexists. split; [reflexivity|]. fold (dist a) (dist best).
    destruct (Rlt_dec (dist a) (dist best)) as [Hlt|Hge].
    + exists a. split; [exact Hk|]. split.
      * intros j f Hj Hf. destruct (Nat.eq_dec j k) as [->|Hjk].
        -- rewrite Hk in Hf. injection Hf as <-. lra.
        -- pose proof (Hmin j f ltac:(lia) Hf). lra.
      * intros j f Hj Hf. pose proof (Hmin j f Hj Hf). lra.
    + exists best. split; [exact Hbest|]. split; [|exact Hfirst].
      intros j f Hj Hf. destruct (Nat.eq_dec j k) as [->|Hjk].
      * rewrite Hk in Hf. injection Hf as <-. lra.
      * apply (Hmin j f); [lia|exact Hf].
  - exists r, best. cbn [Nat.add] in Hmin.
    split; [|split; [exact Hbest|split]].
    + unfold onTimeUpdate.
      destruct (Nat.eqb_spec (length framesRef) 0) as [Hz|_].
      { destruct framesRef; [congruence|discriminate]. }
      unfold nearestIdx_of. rewrite Hr. cbn [mbind option_bind].
      rewrite Hbest. reflexivity.
    + intros j f Hf. apply (Hmin j f); [|exact Hf].
      apply lookup_lt_Some in Hf. exact Hf.
    + exact Hfirst.
Qed.

(** X13: on a non-empty [framesRef] the [onTimeUpdate] handler does not
    fail; it seeks to an index of [framesRef] whose frame is nearest in
    time to the playback time, the earliest such index, and redraws the
    overlay for that frame. *)
Theorem onTimeUpdate_nearest (ready : bool) (video : Video.t)
    (framesRef : list FrameSnapshot.t) (currentTime : R) :
  framesRef <> [] ->
  exists nearestIdx nearest,
    onTimeUpdate ready video framesRef currentTime
      = Some (Some (drawOverlay ready video (Some nearest), nearestIdx)) /\
    framesRef !! nearestIdx = Some nearest /\
    (forall j f, framesRef !! j = Some f ->
       Rabs (FrameSnapshot.time nearest - currentTime)
         <= Rabs (FrameSnapshot.time f - currentTime)) /\
    (forall j f, (j < nearestIdx)%nat -> framesRef !! j = Some f ->
       Rabs (FrameSnapshot.time nearest - currentTime)
         < Rabs (FrameSnapshot.time f - currentTime)).
Proof. exact (onTimeUpdate_run ready video framesRef currentTime). Qed.

(** * The sampler *)

(** The frames pushed by [m] iterations entered at [time] and detector
    call [call]. *)
Lemma sample_loop_inv (detector : nat -> option (list Keypoint.t))
    (width height duration step : R) (fuel : nat) (time : R) (call : nat)
    (frames out : list FrameSnapshot.t) :
  sample_loop fuel detector width height duration step time call frames
    = Some out ->
  exists m,
    (m < fuel)%nat /\
    (forall j, (j < m)%nat -> time + INR j * step <= duration) /\
    duration < time + INR m * step /\
    out = frames ++
      map (fun j => sample_frame width height (time + INR j * step)
                      (detector (call + j)%nat)) (seq 0 m).
Proof.
  revert time call frames. induction fuel as [|fuel IH]; intros time call frames;
    cbn [sample_loop]; [discriminate|].
  destruct (Rle_dec time duration) as [Hle|Hgt].
  - intros Hrun. destruct (IH _ _ _ Hrun) as (m & Hm & Hin & Hout & ->).
    exists (S m). split; [lia|]. split; [|split].
    + intros [|j] Hj; [simpl; lra|].
      specialize (Hin j ltac:(lia)). rewrite S_INR. lra.
    + rewrite S_INR. lra.
    + rewrite <- app_assoc. f_equal. cbn [seq map app].
      f_equal; [f_equal; [simpl; lra|f_equal; lia]|].
      rewrite <- seq_shift, map_map. apply map_ext. intros j.
      f_equal; [rewrite S_INR; lra|f_equal; lia].
  - intros [= <-]. exists 0%nat. split; [lia|]. split; [intros; lia|].
    split; [simpl; lra|]. rewrite app_nil_r. reflexivity.
Qed.

(** With a positive step the loop ends once the fuel exceeds the number of
    timestamps up to [duration]. *)
Lemma sample_loop_Some (detector : nat -> option (list Keypoint.t))
    (width height duration step : R) (m fuel : nat) (time : R) (call : nat)
    (frames : list FrameSnapshot.t) :
  (m < fuel)%nat -> duration < time + INR m * step ->
  0 < step ->
  is_Some (sample_loop fuel detector width height duration step time call frames).
Proof.
  revert fuel time call frames. induction m as [|m IH];
    intros fuel time call frames Hfuel Hend Hstep;
    (destruct fuel as [|fuel]; [lia|]); cbn [sample_loop].
  - destruct (Rle_dec time duration); [simpl in Hend; lra|eauto].
  - destruct (Rle_dec time duration); [|eauto].
    apply IH; [lia| |exact Hstep]. rewrite S_INR in Hend. lra.
Qed.

(** The duration and the step the sampler works with. *)
Lemma sampler_step_bounds (video : Video.t) :
  0 <= Video.duration video ->
  let duration := js_or (Video.duration video) 3 in
  let step := Math_max (duration / SAMPLE_FRAMES) 0.02 in
  0 < duration /\ 0.02 <= step /\ duration <= 90 * step.
Proof.
  intros Hd. cbv zeta. unfold Math_max, SAMPLE_FRAMES.
  assert (Hpos : 0 < js_or (Video.duration video) 3).
  { unfold js_or. destruct (Req_dec_T _ 0); lra. }
  split; [exact Hpos|]. split; [apply Rmax_r|].
  pose proof (Rmax_l (js_or (Video.duration video) 3 / 90) 0.02). lra.
Qed.

(** A run of the sampler with a canvas context: it returns a frame per
    timestamp [0, step, 2 step, ...] up to the duration, frame [k] built
    from the answer to detector call [k]. *)
Lemma sampler_run (fuel : nat) (video : Video.t)
    (detector : nat -> option (list Keypoint.t)) frames :
  0 <= Video.duration video ->
  samplePosesFromVideo fuel true video detector = Returned frames ->
  let width := js_or (Video.videoWidth video) 1280 in
  let height := js_or (Video.videoHeight video) 720 in
  let duration := js_or (Video.duration video) 3 in
  let step := Math_max (duration / SAMPLE_FRAMES) 0.02 in
  (1 <= length frames <= 91)%nat /\
  duration < INR (length frames) * step /\
  forall k f, frames !! k = Some f ->
    f = sample_frame width height (INR k * step) (detector k) /\
    INR k * step <= duration.
Proof.
  intros Hd Hrun. cbv zeta.
  destruct (sampler_step_bounds video Hd) as (Hdur & Hstep & H90).
  cbv zeta in Hdur, Hstep, H90.
  unfold samplePosesFromVideo in Hrun. cbn [negb] in Hrun.
  set (width := js_or (Video.videoWidth video) 1280) in *.
  set (height := js_or (Video.videoHeight video) 720) in *.
  set (duration := js_or (Video.duration video) 3) in *.
  set (step := Math_max (duration / SAMPLE_FRAMES) 0.02) in *.
  destruct (sample_loop fuel detector width height duration step 0 0 [])
    as [out|] eqn:Hloop; [|discriminate].
  injection Hrun as ->.
  destruct (sample_loop_inv _ _ _ _ _ _ _ _ _ _ Hloop) as (m & _ & Hin & Hend & ->).
  cbn [app]. rewrite length_map, length_seq.
  rewrite Rplus_0_l in Hend.
  assert (Hm1 : (1 <= m)%nat).
  { destruct m; [simpl in Hend; lra|lia]. }
  assert (Hm91 : (m <= 91)%nat).
  { destruct (Nat.le_gt_cases m 91) as [|Hgt]; [assumption|exfalso].
    specialize (Hin 91%nat Hgt). rewrite Rplus_0_l in Hin.
    rewrite INR_IZR_INZ in Hin. change (Z.of_nat 91) with 91%Z in Hin. lra. }
  split; [lia|]. split; [exact Hend|].
  intros k f Hf.
  rewrite list_lookup_fmap in Hf.
  destruct (seq 0 m !! k) as [j|] eqn:Hj; [|discriminate].
  apply lookup_seq in Hj. destruct Hj as [-> Hk]. cbn [Nat.add] in *.
  simpl in Hf. injection Hf as <-. rewrite Rplus_0_l.
  split; [reflexivity|]. specialize (Hin k Hk). lra.
Qed.

(** Fuel for 92 iterations is enough. *)
Lemma sampler_returns (fuel : nat) (video : Video.t)
    (detector : nat -> option (list Keypoint.t)) :
  0 <= Video.duration video -> (92 <= fuel)%nat ->
  exists frames,
    samplePosesFromVideo fuel true video detector = Returned frames.
Proof.
  intros Hd Hfuel.
  destruct (sampler_step_bounds video Hd) as (Hdur & Hstep & H90).
  cbv zeta in Hdur, Hstep, H90.
  unfold samplePosesFromVideo. cbn [negb].
  destruct (sample_loop_Some detector
              (js_or (Video.videoWidth video) 1280)
              (js_or (Video.videoHeight video) 720)
              (js_or (Video.duration video) 3)
              (Math_max (js_or (Video.duration video) 3 / SAMPLE_FRAMES) 0.02)
              91 fuel 0 0%nat []) as [out Hout]; [lia| |lra|].
  - rewrite INR_IZR_INZ. change (Z.of_nat 91) with 91%Z. lra.
  - rewrite Hout. eauto.
Qed.


Lemma confident_true (kp : Keypoint.t) :
  confident kp = true <-> exists s, Keypoint.score kp = Some s /\ 0.2 < s.
Proof.
  unfold confident. destruct (Keypoint.score kp) as [s|]; cbn [nullish].
  - destruct (Rlt_dec 0.2 s); split; try discriminate; eauto.
    intros (s' & [= <-] & Hs). contradiction.
  - destruct (Rlt_dec 0.2 0); [lra|].
    split; [discriminate|]. intros (s & Hs & _). discriminate.
Qed.

(** Whatever the frame size and the keypoints, the mapper returns depth 0
    and a vertical coordinate of at least 0.4. *)
Lemma mapper_shape (width height : R) (keypoints : list Keypoint.t) :
  at2 (mapKeypointsToBallPosition width height keypoints) = 0 /\
  0.4 <= at1 (mapKeypointsToBallPosition width height keypoints).
Proof.
  unfold mapKeypointsToBallPosition.
  destruct (mapper_wrist keypoints); unfold at1, at2; cbn [fst snd].
  - split; [reflexivity|apply Rmax_l].
  - split; [reflexivity|lra].
Qed.

(** X15: every frame the sampler returns is labelled Run-Up with speed 0
    and depth 0; its ball position is mapped from all the keypoints of its
    detector call, while its seam angle is computed from, and its
    keypoints are, exactly those with a score above 0.2; its vertical
    coordinate is at least 0.4 and its release height is that coordinate
    raised to at least 1.2. *)
Theorem sampled_frame_shape (fuel : nat) (video : Video.t)
    (detector : nat -> option (list Keypoint.t)) frames :
  samplePosesFromVideo fuel true video detector = Returned frames ->
  forall k f, frames !! k = Some f ->
    FrameSnapshot.phase f = RunUp /\
    FrameSnapshot.speedKph f = 0 /\
    FrameSnapshot.ballPosition f =
      mapKeypointsToBallPosition (js_or (Video.videoWidth video) 1280)
        (js_or (Video.videoHeight video) 720) (nullish (detector k) []) /\
    at2 (FrameSnapshot.ballPosition f) = 0 /\
    0.4 <= at1 (FrameSnapshot.ballPosition f) /\
    FrameSnapshot.releaseHeight f = Rmax (at1 (FrameSnapshot.ballPosition f)) 1.2 /\
    1.2 <= FrameSnapshot.releaseHeight f /\
    FrameSnapshot.seamAngle f = computeSeamAngle (FrameSnapshot.keypoints f) /\
    (forall kp, kp ∈ FrameSnapshot.keypoints f <->
       exists found s, detector k = Some found /\ kp ∈ found /\
         Keypoint.score kp = Some s /\ 0.2 < s).
Proof.
  intros Hrun k f Hf.
  unfold samplePosesFromVideo in Hrun. cbn [negb] in Hrun.
  match type of Hrun with
  | match ?loop with _ => _ end = _ => destruct loop as [out|] eqn:Hloop
  end; [|discriminate].
  injection Hrun as ->.
  destruct (sample_loop_inv _ _ _ _ _ _ _ _ _ _ Hloop) as (m & _ & _ & _ & ->).
  cbn [app] in Hf. rewrite list_lookup_fmap in Hf.
  destruct (seq 0 m !! k) as [j|] eqn:Hj; [|discriminate].
  apply lookup_seq in Hj. destruct Hj as [-> Hk]. cbn [Nat.add] in *.
  simpl in Hf. injection Hf as <-.
  cbn [sample_frame FrameSnapshot.phase FrameSnapshot.speedKph
       FrameSnapshot.ballPosition FrameSnapshot.releaseHeight
       FrameSnapshot.seamAngle FrameSnapshot.keypoints].
  destruct (mapper_shape (js_or (Video.videoWidth video) 1280)
              (js_or (Video.videoHeight video) 720) (nullish (detector k) []))
    as [Hdepth Hvert].
  repeat (split; [first [reflexivity | assumption | apply Rmax_r]|]).
  intros kp. destruct (detector k) as [found|]; cbn [fmap option_fmap option_map nullish].
  - rewrite list_elem_of_In, filter_In, <- list_elem_of_In, confident_true.
    split.
    + intros (Hin & s & Hs & Hlt). exists found, s. auto.
    + intros (found' & s & [= <-] & Hin & Hs & Hlt). eauto.
  - split; [intros Hin; inversion Hin|].
    intros (found & s & Hnone & _). discriminate.
Qed.

(** * The fallback record and the pipeline on sampled frames *)

(** The first smoothed speed of a non-empty input is 0. *)
Lemma first_speed_zero (frames : list FrameSnapshot.t) speeds smoothedSpeeds :
  frames <> [] ->
  speeds_of frames = Some speeds ->
  smoothSeries speeds default_factor = Some smoothedSpeeds ->
  smoothedSpeeds !! 0%nat = Some 0.
Proof.
  intros Hne Hsp Hsm. unfold speeds_of in Hsp.
  destruct (map_from_inv _ _ _ _ Hsp) as [_ Hlook].
  destruct frames as [|f0 rest]; [congruence|].
  destruct (Hlook 0%nat f0 eq_refl) as (b & Hb & Hat).
  cbn in Hat. injection Hat as <-.
  destruct (smooth_loop default_factor speeds [] 0%nat eq_refl)
    as (out & Hrun & _ & _ & Hrec).
  unfold smoothSeries in Hsm. rewrite Hsm in Hrun. injection Hrun as <-.
  apply (Hrec 0%nat 0 Hb). reflexivity.
Qed.

Lemma fallback_only_for_empty_aux (frames : list FrameSnapshot.t) :
  enrichFrames frames = Some fallback_result -> frames = [].
Proof.
  intros Hrun. destruct frames as [|f0 rest]; [reflexivity|exfalso].
  destruct (enrichFrames_frames (f0 :: rest) ltac:(discriminate))
    as (result & speeds & smoothed & seams & Hrun' & Hsp & Hsm & _ & _ & _ & H).
  cbv zeta in H. destruct H as (_ & _ & _ & Hframe).
  rewrite Hrun in Hrun'. injection Hrun' as <-.
  destruct (Hframe 0%nat f0 eq_refl) as (speed & angle & Hspeed & _ & Hsnap).
  rewrite (first_speed_zero (f0 :: rest) speeds smoothed ltac:(discriminate) Hsp Hsm)
    in Hspeed.
  injection Hspeed as <-. cbn in Hsnap. inversion Hsnap. lra.
Qed.

(** X16: the fallback record is returned for the empty input only: on a
    non-empty input the first frame of the result has speed 0, not 115. *)
Theorem fallback_only_for_empty (frames : list FrameSnapshot.t) :
  enrichFrames frames = Some fallback_result <-> frames = [].
Proof.
  split; [apply fallback_only_for_empty_aux|intros ->; reflexivity].
Qed.

(** X17: the pipeline on the frames of the sampler: the analysis succeeds
    and is never the fallback record, it has the sampler's 1 to 91 frames,
    and every instantaneous speed after the first is the displacement over
    the time elapsed since the frame before, which is positive, in km/h
    and rounded: the 0.016 s default for equal timestamps is never used. *)
Theorem pipeline_on_sampled_frames (fuel : nat) (video : Video.t)
    (detector : nat -> option (list Keypoint.t)) frames :
  0 <= Video.duration video ->
  samplePosesFromVideo fuel true video detector = Returned frames ->
  exists result speeds,
    enrichFrames frames = Some result /\
    result <> fallback_result /\
    length (AnalysisResult.frames result) = length frames /\
    (1 <= length frames <= 91)%nat /\
    speeds_of frames = Some speeds /\
    forall k this before, (0 < k)%nat ->
      frames !! k = Some this -> frames !! (k - 1)%nat = Some before ->
      let dx := at0 (FrameSnapshot.ballPosition this)
                - at0 (FrameSnapshot.ballPosition before) in
      let dy := at1 (FrameSnapshot.ballPosition this)
                - at1 (FrameSnapshot.ballPosition before) in
      let dz := depth_of (length frames) k - depth_of (length frames) (k - 1) in
      let dt := FrameSnapshot.time this - FrameSnapshot.time before in
      0 < dt /\
      speeds !! k =
        Some (Math_round (sqrt (dx * dx + dy * dy + dz * dz) / dt * 3.6)).
Proof.
  intros Hd Hrun.
  pose proof (sampler_run fuel video detector frames Hd Hrun) as H.
  cbv zeta in H. destruct H as (Hlen & _ & Hframes).
  destruct (sampler_step_bounds video Hd) as (_ & Hstep & _). cbv zeta in Hstep.
  set (step := Math_max (js_or (Video.duration video) 3 / SAMPLE_FRAMES) 0.02) in *.
  assert (Hne : frames <> []) by (intros ->; simpl in Hlen; lia).
  destruct (enrichFrames_frames frames Hne)
    as (result & speeds & smoothed & seams & Hres & Hsp & Hsm & _ & _ & _ & H).
  cbv zeta in H. destruct H as (_ & _ & Hlenr & _).
  exists result, speeds. split; [exact Hres|]. split; [|split; [exact Hlenr|]].
  { intros ->. apply fallback_only_for_empty_aux in Hres. contradiction. }
  split; [exact Hlen|]. split; [exact Hsp|].
  intros k this before Hk Hthis Hbefore. cbv zeta.
  destruct (Hframes _ _ Hthis) as [Ht _]. destruct (Hframes _ _ Hbefore) as [Hb' _].
  assert (Hdt : 0 < FrameSnapshot.time this - FrameSnapshot.time before).
  { rewrite Ht, Hb'. cbn [sample_frame FrameSnapshot.time].
    replace (INR k) with (INR (k - 1) + 1); [lra|].
    rewrite <- S_INR. f_equal. lia. }
  split; [exact Hdt|].
  pose proof Hsp as Hsp'. unfold speeds_of in Hsp'.
  destruct (map_from_inv _ _ _ _ Hsp') as [_ Hlook].
  destruct (Hlook k this Hthis) as (b & Hb & Hat). cbn [Nat.add] in Hat.
  rewrite Hb, <- Hat. unfold speed_at.
  destruct (Nat.eqb_spec k 0) as [|_]; [lia|].
  rewrite (positions_of_lookup _ _ _ Hbefore). cbn [mbind option_bind].
  rewrite (positions_of_lookup _ _ _ Hthis). cbn [mbind option_bind].
  rewrite Hthis. cbn [mbind option_bind]. rewrite Hbefore. cbn [mbind option_bind].
  rewrite js_or_nonzero by lra.
  unfold at0 at 1 2, at1 at 1 2, at2. cbn [fst snd]. reflexivity.
Qed.

(** * The viewer on a result of the analyzer *)

(** The shape of every result of [enrichFrames]: at least one frame, a
    trajectory point per frame, which is that frame's ball position, at a
    depth between 0 and the pitch length. *)
Lemma result_shape (frames : list FrameSnapshot.t) result :
  enrichFrames frames = Some result ->
  AnalysisResult.frames result <> [] /\
  length (AnalysisResult.trajectory result)
    = length (AnalysisResult.frames result) /\
  (forall k f, AnalysisResult.frames result !! k = Some f ->
     AnalysisResult.trajectory result !! k
       = Some (FrameSnapshot.ballPosition f)) /\
  (forall k p, AnalysisResult.trajectory result !! k = Some p ->
     0 <= at2 p <= 20.12).
Proof.
  intros Hrun. destruct frames as [|f0 rest].
  - cbn in Hrun. injection Hrun as <-. cbn.
    split; [discriminate|]. split; [reflexivity|]. split.
    + intros [|k] f Hf; [|destruct k; discriminate].
      cbn in Hf. injection Hf as <-. reflexivity.
    + intros [|k] p Hp; [|destruct k; discriminate].
      cbn in Hp. injection Hp as <-. unfold at2. cbn [snd]. lra.
  - destruct (enrichFrames_frames (f0 :: rest) ltac:(discriminate))
      as (result' & speeds & smoothed & seams & Hrun' & _ & _ & _ & _ & _ & H).
    cbv zeta in H. destruct H as (_ & Htraj & Hlen & Hframe).
    rewrite Hrun in Hrun'. injection Hrun' as <-.
    set (frames := f0 :: rest) in *.
    split; [|split; [|split]].
    + intros Hnil. rewrite Hnil in Hlen. discriminate.
    + rewrite Htraj, positions_of_length, Hlen. reflexivity.
    + intros k f Hf.
      destruct (lookup_lt_is_Some_2 frames k) as [input Hinput].
      { apply lookup_lt_Some in Hf. lia. }
      destruct (Hframe _ _ Hinput) as (speed & angle & _ & _ & Hsnap).
      rewrite Hsnap in Hf. injection Hf as <-.
      rewrite Htraj, (positions_of_lookup _ _ _ Hinput). reflexivity.
    + intros k p Hp. rewrite Htraj in Hp.
      destruct (lookup_lt_is_Some_2 frames k) as [input Hinput].
      { apply lookup_lt_Some in Hp. rewrite positions_of_length in Hp. exact Hp. }
      rewrite (positions_of_lookup _ _ _ Hinput) in Hp. injection Hp as <-.
      unfold at2. cbn [snd].
      pose proof (lookup_lt_Some _ _ _ Hinput) as Hk.
      pose proof (depth_of_mono (length frames) 0 k ltac:(lia)) as Hlo.
      rewrite depth_of_first in Hlo.
      pose proof (depth_of_mono (length frames) k (length frames - 1)%nat ltac:(lia)) as Hhi.
      destruct (Nat.eq_dec (length frames) 1%nat) as [H1|H1].
      * assert (Hk0 : k = 0%nat) by lia. rewrite Hk0, depth_of_first. lra.
      * rewrite depth_of_last in Hhi by lia.
        change (S (length rest)) with (length frames). lra.
Qed.

(** X18: the viewer draws every result of the analyzer, for every key
    frame index, also one past the frames: the ball marker is always
    there; the trajectory tube is there exactly when the result has more
    than one frame, with one control point per frame, [max(4 N, 32)]
    segments and depths between -20.12 and 0; for an index of a frame the
    marker sits on the control point of that index. *)
Theorem viewer_on_analysis (frames : list FrameSnapshot.t) result
    (keyFrameIndex : nat) :
  enrichFrames frames = Some result ->
  exists tube marker light,
    HawkEyeViewer (Some result) keyFrameIndex
      = Some (Scene.mk tube (Some (marker, light))) /\
    (tube = None <-> (length (AnalysisResult.frames result) <= 1)%nat) /\
    forall curve segments, tube = Some (curve, segments) ->
      length curve = length (AnalysisResult.frames result) /\
      segments = Nat.max (length (AnalysisResult.frames result) * 4) 32 /\
      ((keyFrameIndex < length (AnalysisResult.frames result))%nat ->
         curve !! keyFrameIndex = Some marker) /\
      forall p, p ∈ curve -> -20.12 <= at2 p <= 0.
Proof.
  intros Hrun.
  destruct (result_shape frames result Hrun) as (Hne & Hlen & Hpoint & Hdepth).
  assert (Hframe : exists frame,
            nullish_opt (AnalysisResult.frames result !! keyFrameIndex)
              (AnalysisResult.frames result !! 0%nat) = Some frame /\
            ((keyFrameIndex < length (AnalysisResult.frames result))%nat ->
               AnalysisResult.frames result !! keyFrameIndex = Some frame)).
  { destruct (AnalysisResult.frames result !! keyFrameIndex) as [f|] eqn:Hf.
    - exists f. split; [reflexivity|]. auto.
    - destruct (AnalysisResult.frames result) as [|f0 rest] eqn:Hfs; [congruence|].
      exists f0. split; [reflexivity|]. intros Hlt.
      apply lookup_ge_None_1 in Hf. lia. }
  destruct Hframe as (frame & Hsel & Hin).
  unfold HawkEyeViewer, FrameAnnotator. cbn [fmap option_fmap option_map nullish].
  rewrite Hsel. cbn [mbind option_bind].
  eexists _, _, _. split; [reflexivity|]. rewrite Hlen.
  destruct (Nat.ltb_spec 1 (length (AnalysisResult.frames result))) as [Hgt|Hle].
  - unfold Trajectory, curve_of. rewrite Hlen.
    destruct (Nat.eqb_spec (length (AnalysisResult.frames result)) 0) as [|_]; [lia|].
    cbn [mbind option_bind]. split; [split; [discriminate|lia]|].
    intros curve segments [= <- <-]. rewrite length_map, Hlen.
    split; [reflexivity|]. split; [reflexivity|]. split.
    + intros Hlt. specialize (Hin Hlt).
      change (map scene_point (AnalysisResult.trajectory result))
        with (scene_point <$> AnalysisResult.trajectory result).
      rewrite list_lookup_fmap, (Hpoint _ _ Hin). reflexivity.
    + intros p Hp. apply list_elem_of_In, in_map_iff in Hp.
      destruct Hp as (q & <- & Hq). apply list_elem_of_In, list_elem_of_lookup in Hq.
      destruct Hq as [k Hk]. specialize (Hdepth k q Hk).
      unfold scene_point, at2 in *. cbn [snd]. lra.
  - split; [split; [lia|reflexivity]|]. intros curve segments [=].
Qed.

(** * The page *)

(** What holds in every state the page can reach. *)
Lemma app_invariant (s : App.t) :
  app_reachable s ->
  (forall r, App.result s = Some r ->
     App.framesRef s = AnalysisResult.frames r /\
     (App.selectedKeyFrame s < length (AnalysisResult.frames r))%nat) /\
  (App.status s = completed -> is_Some (App.result s)).
Proof.
  induction 1 as [|s s' Hreach [IH1 IH2] Hstep].
  - split; [intros r [=]|intros [=]].
  - destruct Hstep as [s|s|s|s frames s' Hdone|s|s ready video currentTime|s value Hne Hle];
      cbn [reset onStatusChange onSeek App.result App.status App.framesRef
           App.selectedKeyFrame].
    + split; [intros r [=]|intros [=]].
    + split; [exact IH1|intros [=]].
    + split; [exact IH1|intros [=]].
    + unfold analysis_done in Hdone.
      destruct (enrichFrames frames) as [analysis|] eqn:Hrun; [|discriminate].
      cbn [mbind option_bind] in Hdone. injection Hdone as <-.
      cbn [onSeek onResult onStatusChange App.result App.status App.framesRef
           App.selectedKeyFrame].
      destruct (result_shape frames analysis Hrun) as (Hne & _).
      split; [|eauto]. intros r [= <-]. split; [reflexivity|].
      destruct (AnalysisResult.frames analysis); [congruence|simpl; lia].
    + split; [exact IH1|intros [=]].
    + unfold time_update, onTimeUpdate.
      destruct (Nat.eqb_spec (length (App.framesRef s)) 0) as [Hz|Hnz];
        [split; assumption|].
      destruct (onTimeUpdate_run ready video (App.framesRef s) currentTime)
        as (nearestIdx & nearest & Hrun & Hnearest & _).
      { intros Hnil. rewrite Hnil in Hnz. contradiction. }
      unfold onTimeUpdate in Hrun.
      destruct (Nat.eqb_spec (length (App.framesRef s)) 0) as [|_]; [contradiction|].
      rewrite Hrun.
      cbn [onSeek App.result App.status App.framesRef App.selectedKeyFrame].
      split; [|exact IH2]. intros r Hr. destruct (IH1 r Hr) as [Href _].
      split; [exact Href|]. rewrite <- Href.
      apply lookup_lt_Some in Hnearest. exact Hnearest.
    + split; [|exact IH2]. intros r Hr. destruct (IH1 r Hr) as [Href _].
      split; [exact Href|].
      unfold deliveryTimeline in Hne, Hle. rewrite Hr in Hne, Hle.
      cbn [fmap option_fmap option_map nullish] in Hne, Hle.
      rewrite length_imap in Hle.
      destruct (AnalysisResult.frames r); [contradiction|simpl in *; lia].
Qed.

(** X19: in every state the page can reach, a result on display comes with
    a selected key frame that indexes one of its frames, which are the
    frames the [onTimeUpdate] handler scans; so the timeline chip shows the
    phase of the selected frame and the viewer annotates that frame, not
    the first one.  A status of "completed" always comes with a result. *)
Theorem page_invariant (s : App.t) :
  app_reachable s ->
  (forall r, App.result s = Some r ->
     App.framesRef s = AnalysisResult.frames r /\
     exists frame,
       AnalysisResult.frames r !! App.selectedKeyFrame s = Some frame /\
       timeline_label s = Some (FrameSnapshot.phase frame) /\
       FrameAnnotator r (App.selectedKeyFrame s)
         = Some (scene_point (FrameSnapshot.ballPosition frame),
                 (at0 (FrameSnapshot.ballPosition frame) + 4, 5,
                  - at2 (FrameSnapshot.ballPosition frame) - 3))) /\
  (App.status s = completed -> is_Some (App.result s)).
Proof.
  intros Hreach. destruct (app_invariant s Hreach) as [H1 H2].
  split; [|exact H2]. intros r Hr. destruct (H1 r Hr) as [Href Hlt].
  split; [exact Href|].
  destruct (lookup_lt_is_Some_2 _ _ Hlt) as [frame Hframe].
  exists frame. split; [exact Hframe|]. split.
  - unfold timeline_label, deliveryTimeline. rewrite Hr.
    cbn [fmap option_fmap option_map nullish].
    rewrite list_lookup_imap, Hframe. reflexivity.
  - unfold FrameAnnotator. rewrite Hframe. reflexivity.
Qed.

(** * What the analysis does not read *)

Lemma map_from_Forall2 {A B : Type} (Q : A -> A -> Prop)
    (f g : A -> nat -> option B) (l1 l2 : list A) (idx : nat) :
  Forall2 Q l1 l2 ->
  (forall k a b, l1 !! k = Some a -> l2 !! k = Some b -> Q a b ->
     f a (idx + k)%nat = g b (idx + k)%nat) ->
  map_from f idx l1 = map_from g idx l2.
Proof.
  intros Hall. revert idx. induction Hall as [|a b l1 l2 Hab Hall IH];
    intros idx Hfg; cbn [map_from]; [reflexivity|].
  pose proof (Hfg 0%nat a b eq_refl eq_refl Hab) as H0.
  rewrite Nat.add_0_r in H0. rewrite H0.
  destruct (g b idx); cbn [mbind option_bind]; [|reflexivity].
  rewrite (IH (idx + 1)%nat); [reflexivity|].
  intros k a' b' Ha' Hb' Hq.
  replace (idx + 1 + k)%nat with (idx + S k)%nat by lia.
  apply Hfg; assumption.
Qed.

(** X20: the analysis reads the time, the lateral and vertical position,
    the seam angle and the keypoints of its input frames and nothing
    else: two inputs that agree on these give the same result, whatever
    their phase, speed, release height and depth. *)
Theorem enrichFrames_reads (frames1 frames2 : list FrameSnapshot.t) :
  Forall2 (fun a b =>
             FrameSnapshot.time a = FrameSnapshot.time b /\
             at0 (FrameSnapshot.ballPosition a) = at0 (FrameSnapshot.ballPosition b) /\
             at1 (FrameSnapshot.ballPosition a) = at1 (FrameSnapshot.ballPosition b) /\
             FrameSnapshot.seamAngle a = FrameSnapshot.seamAngle b /\
             FrameSnapshot.keypoints a = FrameSnapshot.keypoints b)
    frames1 frames2 ->
  enrichFrames frames1 = enrichFrames frames2.
Proof.
  intros Hall.
  pose proof (Forall2_length _ _ _ Hall) as Hlen.
  assert (Hpos : positions_of frames1 = positions_of frames2).
  { apply list_eq. intros k. unfold positions_of. rewrite !list_lookup_imap, Hlen.
    destruct (frames1 !! k) as [a|] eqn:Ha.
    - destruct (Forall2_lookup_l _ _ _ _ _ Hall Ha) as (b & Hb & _ & H0 & H1 & _).
      rewrite Hb. cbn. rewrite H0, H1. reflexivity.
    - apply lookup_ge_None_1 in Ha.
      rewrite (lookup_ge_None_2 frames2 k) by lia. reflexivity. }
  assert (Htime : forall k,
            FrameSnapshot.time <$> frames1 !! k = FrameSnapshot.time <$> frames2 !! k).
  { intros k. destruct (frames1 !! k) as [a|] eqn:Ha.
    - destruct (Forall2_lookup_l _ _ _ _ _ Hall Ha) as (b & Hb & Ht & _).
      rewrite Hb. cbn. rewrite Ht. reflexivity.
    - apply lookup_ge_None_1 in Ha.
      rewrite (lookup_ge_None_2 frames2 k) by lia. reflexivity. }
  assert (Hspeeds : speeds_of frames1 = speeds_of frames2).
  { unfold speeds_of. rewrite Hpos. eapply map_from_Forall2; [exact Hall|].
    intros k a b _ _ _. cbn [Nat.add]. unfold speed_at.
    destruct (k =? 0)%nat; [reflexivity|].
    destruct (positions_of frames2 !! (k - 1)%nat); cbn [mbind option_bind]; [|reflexivity].
    destruct (positions_of frames2 !! k); cbn [mbind option_bind]; [|reflexivity].
    pose proof (Htime k) as Hk. pose proof (Htime (k - 1)%nat) as Hk1.
    destruct (frames1 !! k), (frames2 !! k); try discriminate;
      cbn [mbind option_bind]; [|reflexivity].
    destruct (frames1 !! (k - 1)%nat), (frames2 !! (k - 1)%nat); try discriminate;
      cbn [mbind option_bind]; [|reflexivity].
    cbn in Hk, Hk1. injection Hk as ->. injection Hk1 as ->. reflexivity. }
  assert (Hseam : map FrameSnapshot.seamAngle frames1
                  = map FrameSnapshot.seamAngle frames2).
  { clear -Hall. induction Hall as [|a b l1 l2 (_ & _ & _ & Hs & _) _ IH];
      [reflexivity|]. cbn [map]. rewrite Hs, IH. reflexivity. }
  assert (Hphases : forall r p i, phases_of frames1 r p i = phases_of frames2 r p i).
  { intros r p i. apply list_eq. intros k. unfold phases_of.
    rewrite !list_lookup_imap.
    destruct (frames1 !! k) as [a|] eqn:Ha.
    - destruct (Forall2_lookup_l _ _ _ _ _ Hall Ha) as (b & Hb & _).
      rewrite Hb. reflexivity.
    - apply lookup_ge_None_1 in Ha.
      rewrite (lookup_ge_None_2 frames2 k) by lia. reflexivity. }
  assert (Henrich : forall phases seams smoothed,
            map_from (enrich_at frames1 phases (positions_of frames2) seams smoothed)
              0 frames1
            = map_from (enrich_at frames2 phases (positions_of frames2) seams smoothed)
                0 frames2).
  { intros phases seams smoothed. eapply map_from_Forall2; [exact Hall|].
    intros k a b Ha Hb (Ht & _ & H1 & _ & Hk). cbn [Nat.add]. unfold enrich_at.
    destruct (phases !! k); cbn [mbind option_bind]; [|reflexivity].
    destruct (positions_of frames2 !! k); cbn [mbind option_bind]; [|reflexivity].
    destruct (seams !! k); cbn [mbind option_bind]; [|reflexivity].
    destruct (smoothed !! k); cbn [mbind option_bind]; [|reflexivity].
    rewrite Ha, Hb. cbn [mbind option_bind]. rewrite Ht, H1, Hk. reflexivity. }
  unfold enrichFrames. rewrite Hlen, Hspeeds, Hseam, Hpos.
  destruct (length frames2 =? 0)%nat; [reflexivity|].
  destruct (speeds_of frames2) as [speeds|]; cbn [mbind option_bind]; [|reflexivity].
  destruct (smoothSeries speeds default_factor) as [smoothed|];
    cbn [mbind option_bind]; [|reflexivity].
  destruct (smoothSeries (map FrameSnapshot.seamAngle frames2) SEAM_SMOOTHING)
    as [seams|]; cbn [mbind option_bind]; [|reflexivity].
  rewrite Hphases, Henrich. reflexivity.
Qed.

(** * The range of the seam angle *)

Lemma Math_atan2_bounds (y x : R) : - PI < Math_atan2 y x <= PI.
Proof.
  pose proof PI_RGT_0 as Hpi. unfold Math_atan2.
  pose proof (atan_bound (y / x)) as Hb.
  destruct (Rlt_dec 0 x) as [Hx|Hx]; [lra|].
  destruct (Rlt_dec x 0) as [Hx'|Hx'].
  - assert (Hinv : / x < 0) by (apply Rinv_lt_0_compat; exact Hx').
    destruct (Rle_dec 0 y) as [Hy|Hy].
    + assert (Hq : y / x <= 0) by (unfold Rdiv; nra).
      assert (atan (y / x) <= 0).
      { destruct Hq as [Hq|Hq].
        - pose proof (atan_increasing _ _ Hq) as Hi. rewrite atan_0 in Hi. lra.
        - rewrite Hq, atan_0. lra. }
      lra.
    + assert (Hq : 0 < y / x) by (unfold Rdiv; nra).
      pose proof (atan_increasing _ _ Hq) as Hi. rewrite atan_0 in Hi. lra.
  - destruct (Rlt_dec 0 y); [lra|]. destruct (Rlt_dec y 0); lra.
Qed.

Lemma computeSeamAngle_bounds (keypoints : list Keypoint.t) :
  -180 <= computeSeamAngle keypoints <= 180.
Proof.
  unfold computeSeamAngle.
  destruct (seam_wrist keypoints) as [wrist|]; [|lra].
  destruct (seam_elbow keypoints) as [elbow|]; [|lra].
  destruct (Keypoint.x wrist), (Keypoint.y wrist),
    (Keypoint.x elbow), (Keypoint.y elbow); try lra.
  cbv zeta. cbn [nullish].
  match goal with
  | |- context [Math_atan2 ?dy ?dx] =>
      pose proof (Math_atan2_bounds dy dx) as Hb; set (a := Math_atan2 dy dx) in *
  end.
  pose proof PI_RGT_0 as Hpi.
  assert (Hdeg : -180 < a * 180 / PI <= 180).
  { unfold Rdiv. rewrite Rmult_assoc, (Rmult_comm 180), <- Rmult_assoc.
    assert (Hinv : 0 < / PI) by (apply Rinv_0_lt_compat; exact Hpi).
    assert (Hunit : -1 < a * / PI <= 1).
    { split.
      - apply (Rmult_lt_reg_r PI); [exact Hpi|].
        rewrite Rmult_assoc, Rinv_l by lra. lra.
      - apply (Rmult_le_reg_r PI); [exact Hpi|].
        rewrite Rmult_assoc, Rinv_l by lra. lra. }
    lra. }
  set (deg := a * 180 / PI) in *. unfold Math_round.
  pose proof (Zfloor_bound (deg * 10 + / 2)) as [Hlo Hhi].
  assert (Hz1 : (-1800 <= Zfloor (deg * 10 + / 2))%Z) by (apply Zfloor_lub; lra).
  assert (Hz2 : (Zfloor (deg * 10 + / 2) < 1801)%Z) by (apply lt_IZR; lra).
  apply IZR_le in Hz1. assert (Hz3 : (Zfloor (deg * 10 + / 2) <= 1800)%Z) by lia.
  apply IZR_le in Hz3. lra.
Qed.

(** X21: the seam angle of any keypoint set lies between -180 and 180
    degrees. *)
Theorem computeSeamAngle_range (keypoints : list Keypoint.t) :
  -180 <= computeSeamAngle keypoints <= 180.
Proof. exact (computeSeamAngle_bounds keypoints). Qed.

(** X22: the telemetry of an analysis of sampled frames: the release pace
    and the run-up velocity are strictly positive, the seam angle lies
    between -180 and 180 degrees, the release height is at least 0.4 m
    (the sampler's floor of 1.2 m is not kept) and the predicted impact
    distance lies between 0 and 20.12 m. *)
Theorem telemetry_on_sampled_frames (fuel : nat) (video : Video.t)
    (detector : nat -> option (list Keypoint.t)) frames :
  0 <= Video.duration video ->
  samplePosesFromVideo fuel true video detector = Returned frames ->
  exists result,
    enrichFrames frames = Some result /\
    let sm := AnalysisResult.summary result in
    0 < Summary.releaseSpeedKph sm /\
    0 < Summary.runupVelocityKph sm /\
    -180 <= Summary.seamAngle sm <= 180 /\
    0.4 <= Summary.releaseHeight sm /\
    0 <= Summary.predictedImpactMeters sm <= 20.12.
Proof.
  intros Hd Hrun.
  pose proof (sampler_run fuel video detector frames Hd Hrun) as H.
  cbv zeta in H. destruct H as (Hlen & _ & Hframes).
  destruct (sampler_step_bounds video Hd) as (_ & Hstep & _). cbv zeta in Hstep.
  assert (Hne : frames <> []) by (intros ->; simpl in Hlen; lia).
  destruct (pace_positive_run frames Hne) as (result & Hres & _ & Hpace & Hrunup).
  { intros i a b Ha Hb.
    destruct (Hframes _ _ Ha) as [-> _]. destruct (Hframes _ _ Hb) as [-> _].
    cbn [sample_frame FrameSnapshot.time]. rewrite plus_INR. simpl. nra. }
  exists result. split; [exact Hres|]. cbv zeta.
  split; [exact Hpace|]. split; [exact Hrunup|].
  destruct (summary_of_run frames Hne)
    as (result' & speeds & smoothed & seams & atRelease & atRunup & angle &
        snap & input & atImpact & Hres' & _ & _ & Hse & H).
  rewrite Hres in Hres'. injection Hres' as <-.
  cbv zeta in H.
  destruct H as (_ & _ & _ & Hangle & _ & Hinput & Hheight & Hat & _ & _ & Hsa & Hrh & Hpi).
  split; [|split].
  - rewrite Hsa.
    assert (Hall : Forall (fun v => -180 <= v <= 180) seams).
    { destruct (smooth_loop_Forall (fun v => -180 <= v <= 180) SEAM_SMOOTHING
                  (map FrameSnapshot.seamAngle frames) [] 0%nat)
        as (out & Hout & Hall).
      - intros a b Ha Hb. unfold SEAM_SMOOTHING. split; nra.
      - reflexivity.
      - constructor.
      - apply Forall_forall. intros v Hv.
        apply list_elem_of_In, in_map_iff in Hv. destruct Hv as (f & <- & Hf).
        apply list_elem_of_In, list_elem_of_lookup in Hf. destruct Hf as [k Hk].
        destruct (Hframes _ _ Hk) as [-> _].
        cbn [sample_frame FrameSnapshot.seamAngle]. apply computeSeamAngle_bounds.
      - unfold smoothSeries in Hse. rewrite Hse in Hout. injection Hout as <-.
        exact Hall. }
    pose proof (Forall_lookup_1 _ _ _ _ Hall Hangle).
    destruct (Req_dec_T angle 0); lra.
  - rewrite Hrh, Hheight. destruct (Hframes _ _ Hinput) as [-> _].
    cbn [sample_frame FrameSnapshot.ballPosition]. apply mapper_shape.
  - rewrite Hpi. destruct (result_shape frames result Hres) as (_ & _ & _ & Hdepth).
    specialize (Hdepth _ _ Hat).
    split; [apply Rmax_l|]. apply Rmax_lub; lra.
Qed.

(** * Instances *)

Lemma uniform_frames_times (i : nat) a b :
  uniform_frames !! i = Some a -> uniform_frames !! (i + 1)%nat = Some b ->
  FrameSnapshot.time a <= FrameSnapshot.time b.
Proof.
  intros Ha Hb.
  apply uniform_frames_lookup in Ha as [_ ->].
  apply uniform_frames_lookup in Hb as [_ ->].
  cbn [still_frame FrameSnapshot.time]. rewrite plus_INR. simpl. lra.
Qed.

Lemma release_is_peak_witness :
  uniform_frames <> [] /\
  exists result snap,
    enrichFrames uniform_frames = Some result /\
    AnalysisResult.frames result
      !! KeyMoments.releaseFrame (AnalysisResult.keyMoments result) = Some snap /\
    forall k f, AnalysisResult.frames result !! k = Some f ->
      FrameSnapshot.speedKph f <= FrameSnapshot.speedKph snap.
Proof.
  split; [discriminate|]. apply release_is_peak. discriminate.
Defined.

Lemma release_tie_break_witness :
  burst_frames <> [] /\
  exists result snap,
    enrichFrames burst_frames = Some result /\
    AnalysisResult.frames result
      !! KeyMoments.releaseFrame (AnalysisResult.keyMoments result) = Some snap.
Proof.
  split; [discriminate|].
  destruct (release_tie_break burst_frames ltac:(discriminate))
    as (result & snap & Hrun & H).
  cbv zeta in H. destruct H as [Hsnap _]. exists result, snap. auto.
Defined.

Lemma phases_follow_key_moments_witness :
  uniform_frames <> [] /\
  exists result,
    enrichFrames uniform_frames = Some result /\
    forall i j fi fj, (i <= j)%nat ->
      AnalysisResult.frames result !! i = Some fi ->
      AnalysisResult.frames result !! j = Some fj ->
      (phase_rank (FrameSnapshot.phase fi)
         <= phase_rank (FrameSnapshot.phase fj))%nat.
Proof.
  split; [discriminate|].
  destruct (phases_follow_key_moments uniform_frames ltac:(discriminate))
    as (result & Hrun & H).
  cbv zeta in H. destruct H as [_ Hmono]. exists result. auto.
Defined.

Lemma enriched_frame_fields_witness :
  uniform_frames <> [] /\
  exists result,
    enrichFrames uniform_frames = Some result /\
    length (AnalysisResult.frames result) = 10%nat.
Proof.
  split; [discriminate|].
  destruct (enriched_frame_fields uniform_frames ltac:(discriminate))
    as (result & Hrun & Hlen & _).
  exists result. auto.
Defined.

Lemma predictedImpact_range_witness :
  uniform_frames <> [] /\
  exists result,
    enrichFrames uniform_frames = Some result /\
    0 <= Summary.predictedImpactMeters (AnalysisResult.summary result) <= 20.12.
Proof.
  split; [discriminate|].
  destruct (predictedImpact_range uniform_frames ltac:(discriminate))
    as (result & Hrun & H).
  cbv zeta in H. destruct H as (_ & Hrange & _). exists result. auto.
Defined.

Lemma pace_is_positive_witness :
  uniform_frames <> [] /\
  exists result,
    enrichFrames uniform_frames = Some result /\
    0 < Summary.releaseSpeedKph (AnalysisResult.summary result).
Proof.
  split; [discriminate|].
  destruct (pace_is_positive uniform_frames ltac:(discriminate) uniform_frames_times)
    as (result & Hrun & _ & Hpace & _).
  exists result. auto.
Defined.

Lemma mapper_range_witness :
  0 < 1280 /\ 0 < 720 /\
  exists lateral vertical,
    mapKeypointsToBallPosition 1280 720 left_wrist_keypoints
      = (lateral, vertical, 0) /\
    -1.8 <= lateral <= 1.8 /\ 0.4 <= vertical <= 2.6.
Proof.
  split; [lra|]. split; [lra|].
  apply mapper_range; [lra|lra|].
  intros wrist Hwrist.
  assert (Hsel : mapper_wrist left_wrist_keypoints
                 = Some (Keypoint.mk (Some 640) (Some 360) (Some 0.9)
                           (Some "left_wrist"))) by reflexivity.
  rewrite Hsel in Hwrist. injection Hwrist as <-.
  cbn [Keypoint.x Keypoint.y]. split; intros ? [= <-]; lra.
Defined.

Lemma onTimeUpdate_nearest_witness :
  uniform_frames <> [] /\
  exists nearestIdx nearest,
    onTimeUpdate true sample_video uniform_frames 0.25
      = Some (Some (drawOverlay true sample_video (Some nearest), nearestIdx)) /\
    uniform_frames !! nearestIdx = Some nearest.
Proof.
  split; [discriminate|].
  destruct (onTimeUpdate_nearest true sample_video uniform_frames 0.25
              ltac:(discriminate))
    as (nearestIdx & nearest & Hrun & Hnearest & _).
  exists nearestIdx, nearest. auto.
Defined.


Lemma sampled_frame_shape_witness :
  exists frames,
    samplePosesFromVideo 92 true sample_video wrist_detector = Returned frames /\
    forall k f, frames !! k = Some f ->
      FrameSnapshot.phase f = RunUp /\ 1.2 <= FrameSnapshot.releaseHeight f.
Proof.
  destruct (sampler_returns 92 sample_video wrist_detector
              ltac:(simpl; lra) ltac:(lia)) as [frames Hrun].
  exists frames. split; [exact Hrun|]. intros k f Hf.
  destruct (sampled_frame_shape 92 sample_video wrist_detector frames Hrun k f Hf)
    as (Hphase & _ & _ & _ & _ & _ & Hheight & _).
  auto.
Defined.

Lemma pipeline_on_sampled_frames_witness :
  exists frames result,
    samplePosesFromVideo 92 true sample_video wrist_detector = Returned frames /\
    enrichFrames frames = Some result /\
    result <> fallback_result.
Proof.
  assert (Hd : 0 <= Video.duration sample_video) by (simpl; lra).
  destruct (sampler_returns 92 sample_video wrist_detector Hd ltac:(lia))
    as [frames Hrun].
  destruct (pipeline_on_sampled_frames 92 sample_video wrist_detector frames Hd Hrun)
    as (result & speeds & Hres & Hnot & _).
  exists frames, result. auto.
Defined.

Lemma telemetry_on_sampled_frames_witness :
  exists frames result,
    samplePosesFromVideo 92 true sample_video wrist_detector = Returned frames /\
    enrichFrames frames = Some result /\
    0.4 <= Summary.releaseHeight (AnalysisResult.summary result).
Proof.
  assert (Hd : 0 <= Video.duration sample_video) by (simpl; lra).
  destruct (sampler_returns 92 sample_video wrist_detector Hd ltac:(lia))
    as [frames Hrun].
  destruct (telemetry_on_sampled_frames 92 sample_video wrist_detector frames Hd Hrun)
    as (result & Hres & H).
  cbv zeta in H. destruct H as (_ & _ & _ & Hheight & _).
  exists frames, result. auto.
Defined.

Lemma viewer_on_analysis_witness :
  exists tube marker light,
    HawkEyeViewer (Some fallback_result) 5
      = Some (Scene.mk tube (Some (marker, light))) /\
    tube = None.
Proof.
  destruct (viewer_on_analysis [] fallback_result 5 eq_refl)
    as (tube & marker & light & Hrun & Htube & _).
  exists tube, marker, light. split; [exact Hrun|].
  apply Htube. simpl. lia.
Defined.

Lemma page_invariant_witness :
  app_reachable (App.mk completed (Some fallback_result) 0 [fallback]) /\
  timeline_label (App.mk completed (Some fallback_result) 0 [fallback])
    = Some RunUp.
Proof.
  assert (Hreach : app_reachable
            (App.mk completed (Some fallback_result) 0 [fallback])).
  { apply (reach_step initial_app); [apply reach_initial|].
    apply (step_done initial_app []). reflexivity. }
  split; [exact Hreach|].
  destruct (page_invariant _ Hreach) as [H _].
  destruct (H fallback_result eq_refl) as (_ & frame & Hframe & Hlabel & _).
  cbn in Hframe. injection Hframe as <-. exact Hlabel.
Defined.

Lemma enrichFrames_reads_witness :
  enrichFrames [still_frame 0] = enrichFrames [relabelled_frame].
Proof.
  apply enrichFrames_reads. repeat constructor.
Defined.
